(** * Round coordination and checkpoint hand-off of the training validators

    A shallow embedding of the coordination logic of the repository:

    - [distributed_training/utils/state_loader.py]: [ModelLoadingManager],
      [load_state_from_peer], [cleanup_old_cache], [save_and_upload_state];
    - [distributed_training/utils/misc.py]: [get_current_block_safe],
      [ttl_get_block] under [ttl_cache], the peer list and the connection
      loop of [init_dht];
    - [distributed_training/validator/forward.py]: the routine epoch check,
      the all-reduce schedule, the miner polling loop of the master and
      the all-reduce round with its handler;
    - [template/validator/forward.py]: [validate_peers],
      [perform_all_reduce], the routine epoch check, the waiting loop on
      the averaging step and the publication of a new tag;
    - [template/validator/reward.py]: the scoring functions;
    - [scripts/grad_averager_test.py]: the ordering of a custom group.

    Calls into collaborators (the hub, the averager, the optimizer, the
    directory) are recorded as a trace of [event]s; their answers are read
    from an environment, so every function below is a total, executable
    function of its inputs and of the answers of its collaborators. *)

From Stdlib Require Import ZArith QArith Qabs Qround Lia Lqa Bool Floats.
From stdpp Require Import base option list sets sorting strings.

#[local] Open Scope Z_scope.

(** ** Calls to collaborators *)

(** Durations are the arguments handed to [time.sleep] / [asyncio.sleep]. *)
Definition duration := Z.

Inductive event : Type :=
| GetGlobalEpoch                          (* get_global_epoch(self) *)
| LoadModel (epoch : Z) (ok : bool)       (* load_model_optimizer_gradient_averager(self, name, epoch) *)
| CleanupCache                            (* cleanup_old_cache(self) *)
| SavePretrained (ok : bool)              (* self.model.save_pretrained(tmp_folder) *)
| SaveOptimizer (epoch : Z) (ok : bool)   (* torch.save(optimizer_state, .../optimizer.pt) *)
| UploadFolder (epoch : Z) (ok : bool)    (* upload_folder(..., commit_message) *)
| PushToHub (ok : bool)                   (* self.model.push_to_hub(name) *)
| CreateTag (tag : Z) (ok : bool)         (* create_tag(name, tag=str(epoch)) *)
| ListRepoRefs                            (* list_repo_refs(name) *)
| Sleep (seconds : duration)              (* time.sleep / asyncio.sleep *)
| OptStep                                 (* use_averaged_gradients(): opt.step() *)
| ResetAccumulatedGrads                   (* grad_averager.reset_accumulated_grads_() *)
| Cancel                                  (* gradient_averaging_step.cancel() *)
| ZeroGrad.                               (* use_averaged_gradients(): opt.zero_grad() *)

Definition trace := list event.

(** Recognisers of calls, and the number of calls of one kind in a trace. *)
Definition is_Cancel (e : event) : bool :=
  match e with Cancel => true | _ => false end.
Definition is_ZeroGrad (e : event) : bool :=
  match e with ZeroGrad => true | _ => false end.
Definition is_OptStep (e : event) : bool :=
  match e with OptStep => true | _ => false end.
Definition is_Sleep (e : event) : bool :=
  match e with Sleep _ => true | _ => false end.
Definition is_SavePretrained (e : event) : bool :=
  match e with SavePretrained _ => true | _ => false end.
Definition is_LoadModel (e : event) : bool :=
  match e with LoadModel _ _ => true | _ => false end.
Definition is_load_call (e : event) : bool :=
  match e with GetGlobalEpoch | LoadModel _ _ | CleanupCache => true | _ => false end.
Definition is_hub_write (e : event) : bool :=
  match e with PushToHub _ | CreateTag _ _ | UploadFolder _ _ => true | _ => false end.
(* the calls of [save_and_upload_state] *)
Definition is_upload_call (e : event) : bool :=
  match e with
  | SavePretrained _ | SaveOptimizer _ _ | UploadFolder _ _ | CreateTag _ _
  | Sleep _ => true
  | _ => false
  end.
Definition is_tag_created (e : event) : bool :=
  match e with CreateTag _ true => true | _ => false end.

Fixpoint calls (p : event → bool) (tr : trace) : nat :=
  match tr with
  | [] => 0%nat
  | e :: tr' => if p e then S (calls p tr') else calls p tr'
  end.

(** ** ModelLoadingManager (state_loader.py, lines 19-39) *)

Module ModelLoadingManager.

Record t := mk {
  _is_loading : bool;
  _last_loaded_epoch : option Z
}.

(** [__init__] *)
Definition init : t := {| _is_loading := false; _last_loaded_epoch := None |}.

(** The two properties read the fields under the lock. *)
Definition is_loading (m : t) : bool := _is_loading m.
Definition last_loaded_epoch (m : t) : option Z := _last_loaded_epoch m.

(** [set_loading_state(self, is_loading, epoch=None)]; the body runs under
    [loading_lock], hence as one step. *)
Definition set_loading_state (m : t) (is_loading : bool) (epoch : option Z) : t :=
  {| _is_loading := is_loading;
     _last_loaded_epoch :=
       if negb is_loading && bool_decide (epoch ≠ None)
       then epoch
       else _last_loaded_epoch m |}.

End ModelLoadingManager.

(** ** Progress of a neuron *)

(** [self.local_progress] and the epoch of [self.global_progress]; the
    global epoch is [None] while no state has been published. *)
Record Neuron := mkNeuron {
  local_epoch : Z;
  local_samples_accumulated : Z;
  global_epoch : option Z
}.

(** ** state_loader.py *)

Module StateLoader.

(** *** load_model_optimizer_gradient_averager: the revisions it asks for *)

(** [from_pretrained(model_name, revision=str(epoch)) if epoch else
    from_pretrained(model_name)]: [None] is the default revision. *)
Definition model_revision (epoch : Z) : option Z :=
  if epoch =? 0 then None else Some epoch.

(** [hf_hub_download(..., filename="optimizer.pt", revision=str(epoch))] *)
Definition optimizer_revision (epoch : Z) : Z := epoch.

(** *** load_state_from_peer (lines 207-273) *)

(** The weight samples taken for the log are not part of the model, and
    neither is the log; an exception of [cleanup_old_cache] is caught where
    it is raised (lines 261-264). *)

(** Answers of the collaborators during one call. *)
Record LoadEnv := mkLoadEnv {
  (* get_global_epoch(self): [None] when the query raises *)
  get_global_epoch : option (option Z);
  (* whether the n-th call of load_model_optimizer_gradient_averager
     returns ([true]) or raises ([false]) *)
  load_model_ok : nat → bool
}.

Definition MAX_ATTEMPTS : nat := 3.

Inductive loop_exit := LoopBreak | LoopRaise | LoopCondFalse.

(** The [while attempt < MAX_ATTEMPTS] loop of lines 231-246. *)
Fixpoint load_loop (env : LoadEnv) (epoch : Z) (fuel attempt : nat)
  : loop_exit * trace :=
  match fuel with
  | O => (LoopCondFalse, [])
  | S fuel' =>
      if (attempt <? MAX_ATTEMPTS)%nat then
        if load_model_ok env attempt then (LoopBreak, [LoadModel epoch true])
        else
          let attempt' := S attempt in
          if (attempt' =? MAX_ATTEMPTS)%nat
          then (LoopRaise, [LoadModel epoch false])
          else
            let '(r, tr) := load_loop env epoch fuel' attempt' in
            (r, LoadModel epoch false :: tr)
      else (LoopCondFalse, [])
  end.

Definition load_state_from_peer (env : LoadEnv) (s : Neuron) (epoch : option Z)
  : bool * Neuron * trace :=
  (* if epoch is None: self.global_progress.epoch = get_global_epoch(self);
     epoch = self.global_progress.epoch *)
  let refreshed :=
    match epoch with
    | Some _ => Some (s, [])
    | None =>
        match get_global_epoch env with
        | Some g =>
            Some ({| local_epoch := local_epoch s;
                     local_samples_accumulated := local_samples_accumulated s;
                     global_epoch := g |}, [GetGlobalEpoch])
        | None => None
        end
    end in
  match refreshed with
  | None => (false, s, [GetGlobalEpoch])          (* except Exception: return False *)
  | Some (s1, tr1) =>
      match global_epoch s1 with
      | Some g =>
          (* the epoch argument, or the global epoch it was set to above *)
          let e := default g epoch in
          let '(r, tr2) := load_loop env e (S MAX_ATTEMPTS) 0 in
          match r with
          | LoopRaise => (false, s1, tr1 ++ tr2)   (* except Exception: return False *)
          | _ =>
              (true,
               {| local_epoch := g;
                  local_samples_accumulated := 0;
                  global_epoch := Some g |},
               tr1 ++ tr2 ++ [CleanupCache])
          end
      | None => (false, s1, tr1)
      end
  end.

(** *** save_and_upload_state (lines 311-372) *)

(** What happens in one pass through the [try] block: the first call that
    raises, if any. *)
Inductive upload_attempt :=
| SavePretrainedRaises
| SaveOptimizerRaises
| UploadFolderRaises
| CreateTagRaises
| AttemptOk.

(** The calls of one pass, in program order, up to the one that raises. *)
Definition attempt_events (epoch : Z) (a : upload_attempt) : trace :=
  match a with
  | SavePretrainedRaises => [SavePretrained false]
  | SaveOptimizerRaises => [SavePretrained true; SaveOptimizer epoch false]
  | UploadFolderRaises =>
      [SavePretrained true; SaveOptimizer epoch true; UploadFolder epoch false]
  | CreateTagRaises =>
      [SavePretrained true; SaveOptimizer epoch true; UploadFolder epoch true;
       CreateTag epoch false]
  | AttemptOk =>
      [SavePretrained true; SaveOptimizer epoch true; UploadFolder epoch true;
       CreateTag epoch true]
  end.

Definition is_AttemptOk (a : upload_attempt) : bool :=
  match a with AttemptOk => true | _ => false end.

(** How a call ends: it returns a value or lets an exception escape. *)
Inductive outcome (A : Type) :=
| Returned (a : A)
| Raised.
Arguments Returned {A} a.
Arguments Raised {A}.

Section Upload.
(** [self.model_upload_retry_limit], [self.model_upload_retry_delay],
    the epoch being published, and the answer of the hub to the
    attempt numbered [attempt]. *)
Variable model_upload_retry_limit : Z.
Variable model_upload_retry_delay : duration.
Variable epoch : Z.
Variable env : Z → upload_attempt.

(** The [while attempt < self.model_upload_retry_limit] loop. *)
Fixpoint upload_loop (fuel : nat) (attempt : Z) : outcome bool * trace :=
  match fuel with
  | O => (Returned false, [])
  | S fuel' =>
      if attempt <? model_upload_retry_limit then
        let a := env attempt in
        if is_AttemptOk a then (Returned true, attempt_events epoch a)
        else
          (* except Exception: attempt += 1 *)
          let attempt' := attempt + 1 in
          if attempt' <? model_upload_retry_limit then
            let '(r, tr) := upload_loop fuel' attempt' in
            (r, attempt_events epoch a ++ Sleep model_upload_retry_delay :: tr)
          else (Raised, attempt_events epoch a)          (* raise *)
      else (Returned false, [])                           (* return False *)
  end.

Definition save_and_upload_state : outcome bool * trace :=
  upload_loop (S (Z.to_nat model_upload_retry_limit)) 0.

(** The calls of [k] consecutive passes, the first one numbered
    [attempt]. *)
Fixpoint passes (attempt : Z) (k : nat) : list trace :=
  match k with
  | O => []
  | S k' => attempt_events epoch (env attempt) :: passes (attempt + 1) k'
  end.
End Upload.

(** Passes run one after the other with a sleep between two of them. *)
Fixpoint attempts_with_delays (delay : duration) (ps : list trace) : trace :=
  match ps with
  | [] => []
  | p :: rest =>
      p ++ match rest with
           | [] => []
           | _ :: _ => Sleep delay :: attempts_with_delays delay rest
           end
  end.

End StateLoader.

(** ** Peers and groups *)

Definition uid := Z.

(** A peer identifier, as the integer value of its bytes. *)
Definition PeerID := Z.

(** [template.protocol.Group] *)
Record Group := mkGroup {
  peer_count : nat;
  peer_ids : list PeerID;
  group_id : Z
}.

(** ** template/validator/forward.py *)

Module TemplateForward.

(** *** forward: the routine check of lines 165-169 *)

(** [s] carries the global epoch as refreshed by
    [update_global_tracker_state]. *)
Definition recovery_triggered (s : Neuron) : bool :=
  match global_epoch s with
  | Some g => local_epoch s <? g
  | None => false
  end.

Definition routine_check (env : StateLoader.LoadEnv) (s : Neuron)
  : Neuron * trace :=
  if recovery_triggered s then
    let '(_, s', tr) := StateLoader.load_state_from_peer env s None in (s', tr)
  else (s, []).

(** *** forward: all-reduce or train, line 172 *)

Definition all_reduce_due (s : Neuron) : bool :=
  25 <=? local_samples_accumulated s.

(** *** forward: publishing after a round, lines 301-354 *)

(** [load_state_from_peer] is imported there from
    [template.utils.state_loader]; that file is not among the sources and
    the function of [distributed_training/utils/state_loader.py] stands
    for it. *)

(** [max([int(tag.name) for tag in refs.tags]) if refs.tags else None] *)
Definition max_tag (tags : list Z) : option Z :=
  match tags with
  | [] => None
  | t :: ts => Some (foldr Z.max t ts)
  end.

(** How a call to the hub ends: it returns, raises [HfHubHTTPError], or
    raises another exception. *)
Inductive hub_call := CallOk | CallHTTPError | CallError.

(** The answers of the hub to one pass through the [try] block, and the
    answers to the [load_state_from_peer] of its first handler. *)
Record hub_attempt := mkHubAttempt {
  push_to_hub_r : hub_call;
  create_tag_r : hub_call;
  list_repo_refs_r : hub_call;
  adopt_env : StateLoader.LoadEnv
}.

(** Lines 318-331: the calls of one pass and how the pass ends. *)
Definition try_push (epoch : Z) (a : hub_attempt) : hub_call * trace :=
  match push_to_hub_r a with
  | CallOk =>
      match create_tag_r a with
      | CallOk =>
          (list_repo_refs_r a, [PushToHub true; CreateTag epoch true; ListRepoRefs])
      | r => (r, [PushToHub true; CreateTag epoch false])
      end
  | r => (r, [PushToHub false])
  end.

(** How the code after a completed averaging step ends: it runs to its
    end, an exception escapes from [forward], or the retry loop is still
    running when the fuel is used up. *)
Inductive status := Completed | Escaped | StillRunning.

Section Publish.
Variable model_upload_retry_limit : Z.
Variable model_upload_retry_delay : duration.
(* the value of [tag_name] read before the loop *)
Variable tag_name : Z.
(* the answers to the n-th pass through the loop body *)
Variable hub : nat → hub_attempt.

(** The [while attempt < self.model_upload_retry_limit] loop of lines
    316-354; the first handler does not count the pass as an attempt. *)
Fixpoint push_loop (fuel n : nat) (attempt : Z) (s : Neuron)
  : status * Neuron * trace :=
  match fuel with
  | O => (StillRunning, s, [])
  | S fuel' =>
      if attempt <? model_upload_retry_limit then
        let '(r, tr) := try_push (local_epoch s) (hub n) in
        match r with
        | CallOk => (Completed, s, tr)                               (* break *)
        | CallHTTPError =>
            let '(state_loaded, s1, tr1) :=
              StateLoader.load_state_from_peer (adopt_env (hub n)) s (Some tag_name) in
            if state_loaded then (Completed, s1, tr ++ tr1)          (* break *)
            else
              let '(st, s2, tr2) := push_loop fuel' (S n) attempt s1 in
              (st, s2, tr ++ tr1 ++ tr2)
        | CallError =>
            let attempt' := attempt + 1 in
            if attempt' <? model_upload_retry_limit then
              let '(st, s2, tr2) := push_loop fuel' (S n) attempt' s in
              (st, s2, tr ++ Sleep model_upload_retry_delay :: tr2)
            else (Escaped, s, tr)                                    (* raise *)
        end
      else (Completed, s, [])
  end.
End Publish.

(** Lines 301-354, with [tags] the tags listed by [list_repo_refs]. *)
Definition publish_new_state (model_upload_retry_limit : Z)
    (model_upload_retry_delay : duration) (tags : list Z)
    (hub : nat → hub_attempt) (fuel : nat) (s : Neuron)
  : status * Neuron * trace :=
  let s1 := {| local_epoch := local_epoch s + 1;
               local_samples_accumulated := 0;
               global_epoch := global_epoch s |} in
  match max_tag tags with
  | Some tag_name =>
      if tag_name <? local_epoch s1 then
        let '(st, s2, tr) :=
          push_loop model_upload_retry_limit model_upload_retry_delay
            tag_name hub fuel 0 0 s1 in
        (st, s2, ResetAccumulatedGrads :: ListRepoRefs :: tr)
      else (Completed, s1, [ResetAccumulatedGrads; ListRepoRefs])
  | None => (Completed, s1, [ResetAccumulatedGrads; ListRepoRefs])
  end.

(** *** forward: waiting for the averaging step, lines 241-368 *)

(** Time is counted in seconds since [start_time] (line 214), as a
    rational.  The averaging step completes at [completes_at], or never.
    The condition of the loop reads [done()] and [time.perf_counter()] at
    one instant, and the check of line 249 is made at the instant the
    condition was last evaluated. *)
Definition done (completes_at : option Q) (now : Q) : bool :=
  match completes_at with
  | Some c => Qle_bool c now
  | None => false
  end.

(** [asyncio.sleep(1)] suspends the coroutine for one second at least: a
    pass through the loop takes one second and an overrun that is not
    negative, given by a numerator and a denominator. *)
Definition overrun := (N * positive)%type.
Definition overrun_seconds (o : overrun) : Q := Z.of_N o.1 # o.2.

(** The reading of the clock when the condition is evaluated for the
    [k]-th time, counted from 0; [elapsed] is the first reading. *)
Fixpoint reading (overruns : nat → overrun) (elapsed : Q) (k : nat) : Q :=
  match k with
  | O => elapsed
  | S k' => (reading overruns elapsed k' + 1 + overrun_seconds (overruns k'))%Q
  end.

(** Lines 244-247; [n] counts the passes made and [now] is the reading of
    the clock. *)
Fixpoint wait_loop (completes_at : option Q) (all_reduce_timeout : Z)
    (overruns : nat → overrun) (fuel n : nat) (now : Q) : Q * trace :=
  match fuel with
  | O => (now, [])
  | S fuel' =>
      if negb (done completes_at now)
         && Qle_bool now (inject_Z all_reduce_timeout) then
        let '(t, tr) :=
          wait_loop completes_at all_reduce_timeout overruns fuel' (S n)
            (now + 1 + overrun_seconds (overruns n))%Q in
        (t, Sleep 1 :: tr)
      else (now, [])
  end.

(** Every pass adds a second at least to a reading that was not past the
    timeout, so the fuel given here is never used up. *)
Definition wait_for_averaging (completes_at : option Q)
    (all_reduce_timeout : Z) (overruns : nat → overrun) (elapsed : Q)
  : Q * trace :=
  wait_loop completes_at all_reduce_timeout overruns
    (S (Z.to_nat (all_reduce_timeout + 1 - Qfloor elapsed))) 0 elapsed.

(** The comparison of the weight samples taken before and after the
    optimizer step, lines 280-300. *)
Inductive weights_check := WeightsUnchanged | WeightsCorrupted | WeightsUpdated.

Record RoundEnv := mkRoundEnv {
  completes_at : option Q;
  overruns : nat → overrun;
  weights : weights_check;
  first_load : StateLoader.LoadEnv;
  second_load : StateLoader.LoadEnv;
  tags : list Z;
  hub : nat → hub_attempt
}.

(** What lines 356-366 add when [failed_gradient_all_reduce] is set. *)
Definition failure_epilogue : trace := [Cancel; ZeroGrad].

(** Lines 241-368; the result carries [failed_gradient_all_reduce]. *)
Definition process_all_reduce (model_upload_retry_limit : Z)
    (model_upload_retry_delay : duration) (all_reduce_timeout : Z)
    (env : RoundEnv) (fuel : nat) (s : Neuron) (elapsed : Q)
  : status * bool * Neuron * trace :=
  let '(now, tr_wait) :=
    wait_for_averaging (completes_at env) all_reduce_timeout (overruns env)
      elapsed in
  if done (completes_at env) now then
    match weights env with
    | WeightsUnchanged =>
        let '(_, s1, tr1) :=
          StateLoader.load_state_from_peer (first_load env) s
            (Some (local_epoch s + 1)) in
        (Completed, true, s1, tr_wait ++ OptStep :: tr1 ++ failure_epilogue)
    | WeightsCorrupted =>
        let '(state_loaded, s1, tr1) :=
          StateLoader.load_state_from_peer (first_load env) s
            (Some (local_epoch s + 1)) in
        if state_loaded then
          (Completed, true, s1, tr_wait ++ OptStep :: tr1 ++ failure_epilogue)
        else
          let '(_, s2, tr2) :=
            StateLoader.load_state_from_peer (second_load env) s1
              (Some (local_epoch s1)) in
          (Completed, true, s2,
           tr_wait ++ OptStep :: tr1 ++ tr2 ++ failure_epilogue)
    | WeightsUpdated =>
        let '(st, s1, tr1) :=
          publish_new_state model_upload_retry_limit model_upload_retry_delay
            (tags env) (hub env) fuel s in
        (st, false, s1, tr_wait ++ OptStep :: tr1)
    end
  else
    let '(_, s1, tr1) :=
      StateLoader.load_state_from_peer (first_load env) s None in
    (Completed, true, s1, tr_wait ++ tr1 ++ failure_epilogue).

End TemplateForward.

(** ** distributed_training/validator/forward.py *)

Module DTForward.

(** The options of [self.config.neuron] read by [forward]. *)
Record Config := mkConfig {
  blocks_per_allreduce : Z;
  min_group_size : Z
}.

(** *** The routine check of lines 44-49 *)

(** [self.local_progress.epoch != self.global_progress.epoch] *)
Definition recovery_triggered (s : Neuron) : bool :=
  negb (bool_decide (Some (local_epoch s) = global_epoch s)).

Definition routine_check (env : StateLoader.LoadEnv) (s : Neuron)
  : Neuron * trace :=
  if recovery_triggered s then
    let '(_, s', tr) :=
      StateLoader.load_state_from_peer env s (global_epoch s) in
    (s', tr)
  else (s, []).

(** *** The schedule of lines 51-54 *)

Definition blocks_since_allreduce (block last_allreduce_block : Z) : Z :=
  block - last_allreduce_block.

(** Line 53. *)
Definition interval_reached (cfg : Config) (block last_allreduce_block : Z) : bool :=
  blocks_per_allreduce cfg <=? blocks_since_allreduce block last_allreduce_block.

(** Lines 52-54: the value of line 53 is replaced on line 54. *)
Definition should_allreduce (cfg : Config) (block last_allreduce_block : Z) : bool :=
  let should_allreduce := interval_reached cfg block last_allreduce_block in
  let should_allreduce := true in
  should_allreduce.

(** *** The polling loop of the master, lines 73-82 *)

(** The loop condition: [len(self.miner_uids) < min_group_size - 1]. *)
Definition too_few (cfg : Config) (miner_uids : list uid) : Prop :=
  Z.of_nat (length miner_uids) < min_group_size cfg - 1.

(** [polls n] is the answer of the n-th call of [get_random_uids].  The
    loop has no bound of its own; [None] means that it is still running
    when the fuel is used up.  The result carries the number of calls. *)
Fixpoint get_active_miners (cfg : Config) (polls : nat → list uid)
    (fuel n : nat) (miner_uids : list uid) : option (list uid * nat) :=
  match fuel with
  | O => None
  | S fuel' =>
      if Z.of_nat (length miner_uids) <? min_group_size cfg - 1
      then get_active_miners cfg polls fuel' (S n) (polls n)
      else Some (miner_uids, n)
  end.

End DTForward.

(** ** template/validator/reward.py *)

(** Scores are floats in the program; they are exact rationals here. *)
Module Reward.

#[local] Open Scope Q_scope.

(** [t[i]] on a tuple: a negative index counts from the end, and an index
    out of range raises [IndexError] ([None]). *)
Definition py_index {A} (t : list A) (i : Z) : option A :=
  if (0 <=? i)%Z then t !! Z.to_nat i
  else if (- Z.of_nat (length t) <=? i)%Z
       then t !! Z.to_nat (Z.of_nat (length t) + i)
       else None.

(** [score_gradients], lines 29-69.  [batches] has one entry per batch the
    loader yields: the tuple that line 49 binds to [gradients], one
    component per parameter of the model, each given by what
    [float(sum(component))] evaluates to, [None] when that raises.  The
    calls into the model, the averager and the optimizer are taken to
    return.  After the loop [gradients] is the tuple of the last batch,
    and is unbound when there was no batch.  [gradient_test_index] is
    [response.gradient_test_index], [None] when it is not an integer, and
    [response_gradients] is [response.gradients], [None] when it is not a
    float.  Python floats are binary64, as the primitive floats are.  The
    result is [None] when the function raises. *)
Definition score_gradients (batches : list (list (option float)))
    (gradient_test_index : option Z) (response_gradients : option float)
  : option float :=
  match last batches with
  | None => None                                   (* line 62: UnboundLocalError *)
  | Some gradients =>
      match gradient_test_index ≫= py_index gradients with
      | None => None                               (* line 62: TypeError, IndexError *)
      | Some None => None                          (* line 62: float(...) raises *)
      | Some (Some g) =>
          match response_gradients with
          | None => None                           (* line 67: TypeError *)
          | Some r => Some (1 - abs (g - r))%float
          end
      end
  end.

(** [score_blacklist], lines 72-85; [scores[i] = ...] raises when [i] is
    out of range ([None]). *)
Fixpoint score_blacklist_loop (map_uid_to_peerid : uid → option PeerID)
    (uids : list uid) (i : nat) (peer_ids : list (option PeerID))
    (scores : list Q) : option (list (option PeerID) * list Q) :=
  match uids with
  | [] => Some (peer_ids, scores)
  | uid :: rest =>
      let peer_id := map_uid_to_peerid uid in
      if (i <? length scores)%nat then
        score_blacklist_loop map_uid_to_peerid rest (S i)
          (peer_ids ++ [peer_id])
          (<[i := if peer_id is None then 0 else 1]> scores)
      else None
  end.

Definition score_blacklist (map_uid_to_peerid : uid → option PeerID)
    (uids : list uid) (scores : list Q)
  : option (list (option PeerID) * list Q) :=
  score_blacklist_loop map_uid_to_peerid uids 0 [] scores.

(** The parameters of [score_blacklist], line 72: [async def
    score_blacklist(self, uids, scores)]; none has a default. *)
Definition score_blacklist_parameters : list string :=
  ["self"%string; "uids"%string; "scores"%string].

(** What [load_state_from_miner] under [asyncio.wait_for] gives for one
    peer: an exception, an empty answer, or an answer between two clock
    readings. *)
Inductive probe :=
| ProbeRaises
| ProbeEmpty
| ProbeOk (start_time end_time : Q).

(** The score of one peer in [score_bandwidth], lines 91-113; the
    division by a zero duration raises and is caught by the handler. *)
Definition bandwidth_score (peer : option PeerID) (p : probe) : Q :=
  match peer with
  | None => 0
  | Some _ =>
      match p with
      | ProbeOk start_time end_time =>
          if Qeq_bool (end_time - start_time) 0 then 0
          else 1 / (end_time - start_time)
      | _ => 0
      end
  end.

(** [score_bandwidth], lines 87-115. *)
Fixpoint score_bandwidth_loop (probes : nat → probe)
    (peer_ids : list (option PeerID)) (i : nat) (scores : list Q)
  : option (list Q) :=
  match peer_ids with
  | [] => Some scores
  | peer :: rest =>
      if (i <? length scores)%nat then
        score_bandwidth_loop probes rest (S i)
          (<[i := bandwidth_score peer (probes i)]> scores)
      else None
  end.

Definition score_bandwidth (probes : nat → probe)
    (peer_ids : list (option PeerID)) (scores : list Q) : option (list Q) :=
  score_bandwidth_loop probes peer_ids 0 scores.

(** A miner response, as far as [get_rewards] reads it. *)
Record Response := mkResponse {
  status_code : Z;               (* response.dendrite.status_code *)
  loss_nonempty : bool;          (* response.loss != [] *)
  gradient_test_index : option Z; (* response.gradient_test_index *)
  gradients : option float       (* response.gradients *)
}.

Definition responded (r : Response) : bool :=
  (status_code r =? 200)%Z && loss_nonempty r.

(** What [get_rewards] reads from outside its arguments. *)
Record RewardEnv := mkRewardEnv {
  step : Z;                                  (* self.step *)
  map_uid_to_peerid : uid → option PeerID;   (* self.map_uid_to_peerid *)
  get_random_uids : list uid;                (* get_random_uids(..., k=sample_size) *)
  probes : nat → probe;
  random_sample : list nat → list nat;       (* random.sample(population, k=min(4, len)) *)
  batches : nat → list (list (option float)); (* the batches score_gradients goes through for an index *)
  stored : float → Q                         (* the number the scores tensor holds for a float *)
}.

(** The condition of line 144, with [responses = [responses0]]. *)
Definition no_first_response (responses0 : list Response) : bool :=
  match responses0 with
  | [] => true
  | r :: _ => negb (responded r)
  end.

(** Line 170; [responses[0][uid_index]] raises when the index is out of
    range ([None]). *)
Definition test_uids_index (uids : list uid) (responses0 : list Response)
  : option (list nat) :=
  if (length uids <=? length responses0)%nat then
    Some (List.filter
            (λ i, match responses0 !! i with
                  | Some r => (status_code r =? 200)%Z
                  | None => false
                  end)
            (seq 0 (length uids)))
  else None.

(** Lines 174-176, for one index.  The scores are kept as rationals;
    the product with the float of [score_gradients] is taken on the
    number [stored env] gives for it, which the environment chooses: what
    the tensor holds for a product with a NaN or an infinity is not
    modelled. *)
Definition gradient_score (env : RewardEnv) (sample : list nat)
    (responses0 : list Response) (scores : list Q) (uid_index : nat)
  : option Q :=
  match scores !! uid_index, responses0 !! uid_index with
  | Some score, Some r =>
      if bool_decide (uid_index ∈ sample) then
        match score_gradients (batches env uid_index) (gradient_test_index r)
                (gradients r) with
        | Some x => Some (score * stored env x)
        | None => None
        end
      else Some score
  | _, _ => None
  end.

(** [get_rewards], lines 117-179; [None] when an index is out of range. *)
Definition get_rewards (env : RewardEnv) (uids : list uid)
    (responses0 : list Response) (all_reduce : bool) : option (list Q) :=
  if no_first_response responses0 then
    if all_reduce then
      let uids := get_random_uids env in
      let scores := replicate (length uids) 0 in
      match score_blacklist (map_uid_to_peerid env) uids scores with
      | Some (peer_ids, scores) => score_bandwidth (probes env) peer_ids scores
      | None => None
      end
    else Some (replicate (length uids) 0)
  else
    let scores :=
      map (λ '(_, r), if responded r then 1 else 0) (zip uids responses0) in
    let rescored :=
      if (step env mod 10 =? 0)%Z
      then snd <$> score_blacklist (map_uid_to_peerid env) uids scores
      else Some scores in
    match rescored, test_uids_index uids responses0 with
    | Some scores, Some population =>
        let test_uids_sample_index := random_sample env population in
        mapM (gradient_score env test_uids_sample_index responses0 scores)
             (seq 0 (length uids))
    | _, _ => None
    end.

End Reward.

(** ** scripts/grad_averager_test.py, lines 140-146 *)

Module GradAveragerTest.

Section Order.
(** [peer.xor_id], a key computed by the DHT library from a peer id. *)
Variable xor_id : PeerID → Z.

(** [list.sort(key=...)] is stable: of two peers with the same key the
    one that came first stays first. *)
Fixpoint insert_by_key (p : PeerID) (sorted : list PeerID) : list PeerID :=
  match sorted with
  | [] => [p]
  | q :: rest =>
      if xor_id p <=? xor_id q then p :: q :: rest
      else q :: insert_by_key p rest
  end.

Definition sort_by_key (l : list PeerID) : list PeerID :=
  foldr insert_by_key [] l.

(** The order of the keys. *)
Definition by_key : relation PeerID := λ p q, xor_id p ≤ xor_id q.

(** [ordered_peer_ids = [dht.peer_id]; ordered_peer_ids += remote_peer;
    ordered_peer_ids.sort(key=lambda peer: peer.xor_id)] *)
Definition ordered_peer_ids (self_peer_id : PeerID) (remote_peer : list PeerID)
  : list PeerID :=
  sort_by_key (self_peer_id :: remote_peer).
End Order.

(** [group_id = base64.b64decode(b'akGgUCKXywtpOCU76x9Ncxzi2qk=')], line
    140, read as a big-endian number; the sort of line 145 does not read
    it. *)
Definition group_id : Z := 0x6a41a0502297cb0b6938253beb1f4d731ce2daa9.

End GradAveragerTest.

(** ** The round-due policy as the specification words it *)

Module Spec.

(** The two thresholds of the configuration surface. *)
Record Policy := mkPolicy {
  round_due_tick_interval : Z;
  round_due_sample_threshold : Z
}.

(** "A round is due when either (a) blocks/ticks elapsed since the last
    round exceed a configured interval, or (b) accumulated local samples
    exceed a configured batch threshold." *)
Definition spec_is_round_due (p : Policy) (ticks_elapsed samples : Z) : bool :=
  (round_due_tick_interval p <? ticks_elapsed)
  || (round_due_sample_threshold p <? samples).

(** The distance of the specification's ordering: a peer identifier XORed
    against the group identifier. *)
Definition spec_distance (group_id : Z) (p : PeerID) : Z := Z.lxor p group_id.

End Spec.

(** ** Concrete runs *)

Module Examples.
Import StateLoader.

(** A hub on which every load succeeds and the global epoch is 5. *)
Definition env_ok : LoadEnv :=
  {| get_global_epoch := Some (Some 5); load_model_ok := λ _, true |}.

(** A neuron at epoch 3 with 7 samples, behind a global epoch 5. *)
Definition behind : Neuron :=
  {| local_epoch := 3; local_samples_accumulated := 7; global_epoch := Some 5 |}.

(** A neuron at epoch 6, ahead of a global epoch 5. *)
Definition ahead : Neuron :=
  {| local_epoch := 6; local_samples_accumulated := 0; global_epoch := Some 5 |}.

(** A neuron at epoch 4 with 30 samples, level with the global epoch. *)
Definition level : Neuron :=
  {| local_epoch := 4; local_samples_accumulated := 30; global_epoch := Some 4 |}.

(** Two passes on which the creation of the tag raises, then success. *)
Definition tag_fails_twice (attempt : Z) : upload_attempt :=
  if attempt <? 2 then CreateTagRaises else AttemptOk.

(** A hub that accepts every call. *)
Definition hub_ok (n : nat) : TemplateForward.hub_attempt :=
  TemplateForward.mkHubAttempt
    TemplateForward.CallOk TemplateForward.CallOk TemplateForward.CallOk env_ok.

(** Passes through the waiting loop that take one second each. *)
Definition on_time (n : nat) : TemplateForward.overrun := (0%N, 1%positive).


(** An averaging step that never completes. *)
Definition stuck_round : TemplateForward.RoundEnv :=
  {| TemplateForward.completes_at := None;
     TemplateForward.overruns := on_time;
     TemplateForward.weights := TemplateForward.WeightsUpdated;
     TemplateForward.first_load := env_ok;
     TemplateForward.second_load := env_ok;
     TemplateForward.tags := [5];
     TemplateForward.hub := hub_ok |}.

(** A key of the peer alone: its identifier with the second bit flipped. *)
Definition flipping_key (p : PeerID) : Z := Z.lxor p 2.

(** A pool that always answers with the same two miners, and a pool whose
    second answer has three. *)
Definition pool_of_two (n : nat) : list uid := [1; 2].
Definition growing_pool (n : nat) : list uid :=
  match n with O => [1] | _ => [1; 2; 3] end.

Definition min_group_5 : DTForward.Config :=
  {| DTForward.blocks_per_allreduce := 100; DTForward.min_group_size := 5 |}.
Definition min_group_3 : DTForward.Config :=
  {| DTForward.blocks_per_allreduce := 100; DTForward.min_group_size := 3 |}.

(** The rational a finite float stands for (0 for the others). *)
Definition exact (x : float) : Q :=
  match Prim2SF x with
  | S754_finite s m e =>
      ((if s then -1 else 1) * inject_Z (Z.pos m) * Qpower 2 e)%Q
  | _ => 0%Q
  end.

(** One batch over a model with one parameter, whose gradients sum to 0. *)
Definition one_batch : list (list (option float)) := [[Some 0%float]].

(** One miner that answered; the validator computes a gradient sum of 0
    and the miner reports 3.  The step is not a multiple of ten and the
    sample takes every index that answered. *)
Definition reward_env : Reward.RewardEnv :=
  {| Reward.step := 1;
     Reward.map_uid_to_peerid := λ _, Some 1;
     Reward.get_random_uids := [];
     Reward.probes := λ _, Reward.ProbeEmpty;
     Reward.random_sample := λ population, population;
     Reward.batches := λ _, one_batch;
     Reward.stored := exact |}.
Definition far_response : Reward.Response :=
  {| Reward.status_code := 200; Reward.loss_nonempty := true;
     Reward.gradient_test_index := Some 0;
     Reward.gradients := Some 3%float |}.

(** A policy with an interval of 10 ticks and a threshold of 1000 samples. *)
Definition policy : Spec.Policy :=
  {| Spec.round_due_tick_interval := 10; Spec.round_due_sample_threshold := 1000 |}.

Definition with_samples (n : Z) : Neuron :=
  {| local_epoch := 0; local_samples_accumulated := n; global_epoch := Some 0 |}.
End Examples.


(** ** cleanup_old_cache (state_loader.py, lines 276-308) *)

Module CacheCleanup.
Import StateLoader.

(** A cached revision and a cached repository, as [scan_cache_dir] lists
    them. *)
Record Revision := mkRevision {
  commit_hash : string;
  last_modified : Q
}.

Record CachedRepo := mkCachedRepo {
  repo_id : string;
  revisions : list Revision
}.

(** [sorted(repo.revisions, key=lambda r: r.last_modified, reverse=True)];
    the sort is stable, also in reverse. *)
Fixpoint insert_newest (r : Revision) (sorted : list Revision) : list Revision :=
  match sorted with
  | [] => [r]
  | q :: rest =>
      if Qle_bool (last_modified q) (last_modified r) then r :: q :: rest
      else q :: insert_newest r rest
  end.

Definition newest_first (l : list Revision) : list Revision :=
  foldr insert_newest [] l.

(** [(current_revision is not None) and (revision.commit_hash ==
    current_revision)] *)
Definition is_current (current_revision : option string) (r : Revision) : bool :=
  match current_revision with
  | Some c => bool_decide (commit_hash r = c)
  | None => false
  end.

(** The loop of lines 295-307; [delete_ok h] tells whether
    [cache_info.delete_revisions(h).execute()] returns or raises.  The
    result lists the hashes handed to [delete_revisions], in the order of
    the calls, the one of a call that raises included.  What a call
    removes from the cache is decided by [huggingface_hub] and is not
    part of the model. *)
Fixpoint delete_loop (current_revision : option string)
    (delete_ok : string → bool) (revs : list Revision)
  : outcome unit * list string :=
  match revs with
  | [] => (Returned tt, [])
  | r :: rest =>
      if is_current current_revision r
      then delete_loop current_revision delete_ok rest              (* continue *)
      else if delete_ok (commit_hash r) then
        let '(o, handed) := delete_loop current_revision delete_ok rest in
        (o, commit_hash r :: handed)
      else (Raised, [commit_hash r])
  end.

(** The loop of lines 286-308 over the repositories, left at the first one
    with the wanted id. *)
Fixpoint cleanup_repos (wanted : string) (current_revision : option string)
    (delete_ok : string → bool) (repos : list CachedRepo)
  : outcome unit * list string :=
  match repos with
  | [] => (Returned tt, [])
  | repo :: rest =>
      if bool_decide (repo_id repo = wanted)
      then delete_loop current_revision delete_ok
             (newest_first (revisions repo))                        (* break *)
      else cleanup_repos wanted current_revision delete_ok rest
  end.

(** [cleanup_old_cache(self, repo_id=None, current_revision=None)], with
    [self.config.neuron.model_name] and [self.model.config._commit_hash]. *)
Definition cleanup_old_cache (model_name : string) (_commit_hash : option string)
    (repo_id : option string) (current_revision : option string)
    (delete_ok : string → bool) (repos : list CachedRepo)
  : outcome unit * list string :=
  let '(wanted, current) :=
    match repo_id with
    | None => (model_name, _commit_hash)
    | Some r => (r, current_revision)
    end in
  cleanup_repos wanted current delete_ok repos.

End CacheCleanup.

(** ** distributed_training/utils/misc.py *)

Module Misc.
Import StateLoader.

(** *** get_current_block_safe (lines 433-455) *)

(** The fields of the neuron read and written under [_block_lock]. *)
Record BlockCache := mkBlockCache {
  _last_block : option Z;
  _last_block_time : Q;
  _block_cache_duration : Q
}.

(** [current_time] is the reading of [time.time()]; [chain] is the answer
    of [self.subtensor.get_current_block()], [None] when it raises. *)
Definition get_current_block_safe (s : BlockCache) (current_time : Q)
    (chain : option Z) : outcome Z * BlockCache :=
  let fetch :=
    match chain with
    | Some block =>
        (Returned block,
         {| _last_block := Some block;
            _last_block_time := current_time;
            _block_cache_duration := _block_cache_duration s |})
    | None =>
        match _last_block s with
        | Some block => (Returned block, s)
        | None => (Raised, s)
        end
    end in
  match _last_block s with
  | Some block =>
      if negb (Qle_bool (_block_cache_duration s) (current_time - _last_block_time s))
      then (Returned block, s)
      else fetch
  | None => fetch
  end.

(** *** ttl_cache and ttl_get_block (lines 50-134) *)

(** [if ttl <= 0: ttl = 65536] *)
Definition effective_ttl (ttl : Z) : Z := if ttl <=? 0 then 65536 else ttl.

(** [floor((time.time() - start_time) / seconds)] of [_ttl_hash_gen]. *)
Definition ttl_hash (seconds : Z) (start_time now : Q) : Z :=
  Qfloor ((now - start_time) / inject_Z seconds).

(** The generator of the decorator and the one slot of
    [lru_cache(maxsize=1)], for one neuron: the start time, set when the
    generator is first advanced, and the entry kept, keyed by the hash. *)
Record TtlCache := mkTtlCache {
  start_time : option Q;
  entry : option (Z * Z)
}.

(** [ttl_get_block(self)] under [@ttl_cache(maxsize=1, ttl=12)]: [now] is
    the reading of the clock ([start_time] is that same reading on the
    first call) and [chain] the answer of
    [self.subtensor.get_current_block()], [None] when it raises; the
    boolean tells whether the chain was asked. *)
Definition ttl_get_block (c : TtlCache) (now : Q) (chain : option Z)
  : outcome Z * bool * TtlCache :=
  let start := default now (start_time c) in
  let th := ttl_hash (effective_ttl 12) start now in
  let hit :=
    match entry c with
    | Some (key, block) => if key =? th then Some block else None
    | None => None
    end in
  match hit with
  | Some block =>
      (Returned block, false, {| start_time := Some start; entry := entry c |})
  | None =>
      match chain with
      | Some block =>
          (Returned block, true,
           {| start_time := Some start; entry := Some (th, block) |})
      | None => (Raised, true, {| start_time := Some start; entry := entry c |})
      end
  end.

(** *** init_dht (lines 345-430) *)

(** A run listed by [wandb.Api().runs]: its state and
    [config["neuron"]["dht_addresses"]], [None] without that key. *)
Record WandbRun := mkWandbRun {
  running : bool;
  dht_addresses : option (list string)
}.

(** Lines 369-371 and 381-383. *)
Fixpoint append_new (peers : list string) (initial_peers_list : list string)
  : list string :=
  match peers with
  | [] => initial_peers_list
  | peer :: rest =>
      append_new rest
        (if bool_decide (peer ∈ initial_peers_list)
         then initial_peers_list
         else initial_peers_list ++ [peer])
  end.

(** Lines 364-371 and 376-383: one loop over runs. *)
Fixpoint add_runs (runs : list WandbRun) (initial_peers_list : list string)
  : list string :=
  match runs with
  | [] => initial_peers_list
  | ru :: rest =>
      add_runs rest
        (if running ru then
           match dht_addresses ru with
           | None => initial_peers_list                             (* continue *)
           | Some peers => append_new peers initial_peers_list
           end
         else initial_peers_list)
  end.

(** Lines 357-383: the validators' runs, then the miners' runs. *)
Definition initial_peers (initial_peers_list : list string)
    (validator_runs miner_runs : list WandbRun) : list string :=
  add_runs miner_runs (add_runs validator_runs initial_peers_list).

(** How the body of the [try] of lines 395-423 ends: it returns, the
    creation of the DHT raises, or a later statement raises once
    [successful_connection] is set. *)
Inductive dht_attempt := DhtReturns | DhtRaises | DhtRaisesAfterConnect.

Definition buffer : nat := 5.

(** The state of the loops: [retries], [successful_connection] and the
    number of attempts made, with the peers tried so far. *)
Record DhtState := mkDhtState {
  retries : nat;
  successful_connection : bool;
  tried : list string
}.

(** The [for initial_peer in initial_peers_list] loop; [true] when the
    function has returned. *)
Fixpoint try_peers (answers : nat → dht_attempt) (peers : list string)
    (s : DhtState) : bool * DhtState :=
  match peers with
  | [] => (false, s)
  | peer :: rest =>
      let tried' := tried s ++ [peer] in
      match answers (length (tried s)) with
      | DhtReturns =>
          (true, {| retries := retries s; successful_connection := true;
                    tried := tried' |})
      | DhtRaises =>
          try_peers answers rest
            {| retries := S (retries s);
               successful_connection := successful_connection s;
               tried := tried' |}
      | DhtRaisesAfterConnect =>
          try_peers answers rest
            {| retries := S (retries s); successful_connection := true;
               tried := tried' |}
      end
  end.

(** The [for attempt in range(0, buffer)] loop. *)
Fixpoint try_rounds (answers : nat → dht_attempt) (peers : list string)
    (rounds : nat) (s : DhtState) : bool * DhtState :=
  match rounds with
  | O => (false, s)
  | S rounds' =>
      let '(returned, s') := try_peers answers peers s in
      if returned then (true, s') else try_rounds answers peers rounds' s'
  end.

(** The [while successful_connection is False] loop of lines 390-430;
    [None] when the fuel is used up. *)
Fixpoint connect_loop (answers : nat → dht_attempt) (peers : list string)
    (fuel : nat) (s : DhtState) : option (outcome unit * DhtState) :=
  match fuel with
  | O => None
  | S fuel' =>
      if successful_connection s then Some (Returned tt, s)
      else if (retries s =? buffer * length peers)%nat then Some (Raised, s)
      else
        let '(returned, s') := try_rounds answers peers buffer s in
        if returned then Some (Returned tt, s')
        else connect_loop answers peers fuel' s'
  end.

Definition init_dht_connect (answers : nat → dht_attempt) (peers : list string)
    (fuel : nat) : option (outcome unit * DhtState) :=
  connect_loop answers peers fuel
    {| retries := 0; successful_connection := false; tried := [] |}.

End Misc.

(** ** template/validator/forward.py: validate_peers (lines 66-73) *)

Module TemplateChecks.
Import StateLoader.

(** *** validate_peers (lines 66-73) *)

(** [zip] stops at the shorter of the candidate map and the scores. *)
Definition validate_peers (self_uid : Z)
    (group_peerids : list (uid * option PeerID))
    (blacklist_scores : option (list Q)) : bool :=
  match group_peerids, blacklist_scores with
  | [], _ => false
  | _, None => false
  | _ :: _, Some scores =>
      forallb
        (λ '((uid, peer_id), score),
           (uid =? self_uid)
           || (bool_decide (peer_id ≠ None) && negb (Qeq_bool score 0)))
        (zip group_peerids scores)
  end.

(** *** perform_all_reduce (lines 75-146) *)

(** A call that passes positional arguments only to a function whose
    parameters are all required: Python binds the arguments to the
    parameters in order and raises [TypeError] when their numbers
    differ. *)
Definition bind_arguments {A} (parameters : list string) (arguments : list A)
  : outcome (list (string * A)) :=
  if (length parameters =? length arguments)%nat
  then Returned (zip parameters arguments)
  else Raised.

(** The values passed at line 99: [self] and [group_peerids.keys()]. *)
Inductive argument :=
| Self
| Keys (uids : list uid).

Section PerformAllReduce.
(** [map_uid_to_peerid] of [template.utils.uids], which is not among the
    sources: the map it answers for the miner uids, or that it raises. *)
Variable map_uid_to_peerid : list uid → outcome (list (uid * option PeerID)).
(** What follows once [score_blacklist] is entered with its parameters
    bound: its body, the rest of the loop and lines 104-146. *)
Variable continue :
  list (uid * option PeerID) → list (string * argument) → outcome (Group * list uid).

(** Lines 79-99.  [group_peerids] is [None] when the condition of the
    [while] is first evaluated, so its body is entered: line 97 maps the
    uids and line 99 calls [score_blacklist(self, group_peerids.keys())],
    the function that line 38 imports from [template.validator.reward]. *)
Definition perform_all_reduce (miner_uids : list uid) : outcome (Group * list uid) :=
  match map_uid_to_peerid miner_uids with
  | Raised => Raised
  | Returned group_peerids =>
      match bind_arguments Reward.score_blacklist_parameters
              [Self; Keys group_peerids.*1] with
      | Raised => Raised                                          (* TypeError *)
      | Returned bound => continue group_peerids bound
      end
  end.
End PerformAllReduce.

End TemplateChecks.

(** ** distributed_training/validator/forward.py: the all-reduce round *)

Module DTRound.
Import StateLoader.

(** How [avg_handler.run_validator_allreduce] ends: with a true status,
    with a false status, or with an exception. *)
Inductive allreduce_result := AllReduceSucceeds | AllReduceFails | AllReduceRaises.

(** The answers of the collaborators of one round. *)
Record RoundEnv := mkRoundEnv {
  allreduce : allreduce_result;
  scores_ok : bool;                       (* calculate_allreduce_scores returns *)
  upload_ok : bool;                       (* self.upload_new_state returns *)
  fresh_global_epoch : option (option Z); (* get_global_epoch of line 126 *)
  recovery : LoadEnv
}.

(** What a round leaves behind: the progress, the loading manager, the
    epoch handed to [upload_new_state] and the epoch handed to
    [load_state_from_peer], with the calls of that load. *)
Record RoundResult := mkRoundResult {
  neuron : Neuron;
  manager : ModelLoadingManager.t;
  uploaded : option Z;
  recovered : option (option Z);
  load_calls : trace
}.

(** Lines 112-113 and 157-158. *)
Definition advance (s : Neuron) : Neuron :=
  {| local_epoch := local_epoch s + 1;
     local_samples_accumulated := 0;
     global_epoch := global_epoch s |}.

(** The handler of lines 123-127, entered with the progress [s]. *)
Definition recover (env : RoundEnv) (s : Neuron) (m : ModelLoadingManager.t)
    (uploaded : option Z) : outcome RoundResult :=
  let m' := ModelLoadingManager.set_loading_state m false None in
  match fresh_global_epoch env with
  | None => Raised
  | Some g =>
      let s1 := {| local_epoch := local_epoch s;
                   local_samples_accumulated := local_samples_accumulated s;
                   global_epoch := g |} in
      let '(_, s2, tr) := load_state_from_peer (recovery env) s1 g in
      Returned {| neuron := s2; manager := m'; uploaded := uploaded;
                  recovered := Some g; load_calls := tr |}
  end.

(** Lines 86-127: the round of the master, after the miners are found. *)
Definition master_round (env : RoundEnv) (s : Neuron) (m : ModelLoadingManager.t)
  : outcome RoundResult :=
  match allreduce env with
  | AllReduceSucceeds =>
      if scores_ok env then
        let s1 := advance s in
        if upload_ok env then
          Returned {| neuron := s1; manager := m;
                      uploaded := Some (local_epoch s1);
                      recovered := None; load_calls := [] |}
        else recover env s1 m (Some (local_epoch s1))
      else recover env s m None
  | AllReduceFails => recover env s m None                         (* raise Exception *)
  | AllReduceRaises => recover env s m None
  end.

(** Lines 131-158: the round of the other validators. *)
Definition participant_round (env : RoundEnv) (s : Neuron)
    (m : ModelLoadingManager.t) : outcome RoundResult :=
  match allreduce env with
  | AllReduceSucceeds =>
      if scores_ok env then
        Returned {| neuron := advance s; manager := m; uploaded := None;
                    recovered := None; load_calls := [] |}
      else Raised
  | AllReduceFails =>
      Returned {| neuron := s; manager := m; uploaded := None;
                  recovered := None; load_calls := [] |}
  | AllReduceRaises => Raised
  end.

End DTRound.

(** ** Runs of calls and further recognisers *)

Module CallRuns.
Import StateLoader.

(** A sequence of calls of [set_loading_state], each with its flag and its
    epoch. *)
Definition set_loading_states (m : ModelLoadingManager.t)
    (calls : list (bool * option Z)) : ModelLoadingManager.t :=
  foldl (λ m '(flag, epoch), ModelLoadingManager.set_loading_state m flag epoch)
        m calls.

(** The epoch a call records: the one of a call with a false flag. *)
Definition recorded_epoch (call : bool * option Z) : option Z :=
  if call.1 then None else call.2.


(** A sequence of calls of [get_current_block_safe], each with the reading
    of the clock and the answer of the chain; the outcomes are listed in
    the order of the calls. *)
Fixpoint block_calls (s : Misc.BlockCache) (calls : list (Q * option Z))
  : list (outcome Z) * Misc.BlockCache :=
  match calls with
  | [] => ([], s)
  | (current_time, chain) :: rest =>
      let '(o, s1) := Misc.get_current_block_safe s current_time chain in
      let '(os, s2) := block_calls s1 rest in
      (o :: os, s2)
  end.

Definition is_ResetAccumulatedGrads (e : event) : bool :=
  match e with ResetAccumulatedGrads => true | _ => false end.
Definition is_PushToHub (e : event) : bool :=
  match e with PushToHub _ => true | _ => false end.

(** The calls the code after a round makes when it publishes. *)
Definition is_publish_call (e : event) : bool :=
  match e with
  | PushToHub _ | CreateTag _ _ | ListRepoRefs | Sleep _ => true
  | _ => is_load_call e
  end.

End CallRuns.

(** ** Orders and scores used in the statements *)

Module Orders.

(** A cached revision is at least as new as another one. *)
Definition at_least_as_new : relation CacheCleanup.Revision :=
  λ a b, (CacheCleanup.last_modified b <= CacheCleanup.last_modified a)%Q.

(** The score [score_blacklist] writes for a peer id. *)
Definition blacklist_score (peer_id : option PeerID) : Q :=
  if peer_id is None then 0%Q else 1%Q.

End Orders.

(** ** Further inputs used in the statements *)

Module Scenarios.
Import StateLoader.
#[local] Open Scope string_scope.

(** The progress [load_state_from_peer] leaves when it has loaded epoch 5,
    and the calls it makes on [Examples.env_ok] without an epoch. *)
Definition caught_up : Neuron :=
  {| local_epoch := 5; local_samples_accumulated := 0; global_epoch := Some 5 |}.
Definition caught_up_calls : trace :=
  [GetGlobalEpoch; LoadModel 5 true; CleanupCache].

(** A hub whose global epoch is 5 and on which every load fails. *)
Definition env_down : LoadEnv :=
  {| get_global_epoch := Some (Some 5); load_model_ok := λ _, false |}.

(** A hub that answers every push with [HfHubHTTPError] and on which no
    load succeeds. *)
Definition hub_conflict (n : nat) : TemplateForward.hub_attempt :=
  TemplateForward.mkHubAttempt
    TemplateForward.CallHTTPError TemplateForward.CallOk TemplateForward.CallOk
    env_down.

(** Three cached revisions of the model, listed oldest first, and the
    cache of another repository followed by the one of the model. *)
Definition rev_a : CacheCleanup.Revision :=
  {| CacheCleanup.commit_hash := "a1"; CacheCleanup.last_modified := 1%Q |}.
Definition rev_b : CacheCleanup.Revision :=
  {| CacheCleanup.commit_hash := "b2"; CacheCleanup.last_modified := 2%Q |}.
Definition rev_c : CacheCleanup.Revision :=
  {| CacheCleanup.commit_hash := "c3"; CacheCleanup.last_modified := 3%Q |}.
Definition rev_d : CacheCleanup.Revision :=
  {| CacheCleanup.commit_hash := "d4"; CacheCleanup.last_modified := 4%Q |}.
Definition other_repo : CacheCleanup.CachedRepo :=
  {| CacheCleanup.repo_id := "org/other"; CacheCleanup.revisions := [rev_d] |}.
Definition model_repo : CacheCleanup.CachedRepo :=
  {| CacheCleanup.repo_id := "org/model";
     CacheCleanup.revisions := [rev_a; rev_b; rev_c] |}.

(** Three sampled uids: the first has no peer id, the probe of the second
    takes two seconds and the other probes raise. *)
Definition bandwidth_env : Reward.RewardEnv :=
  {| Reward.step := 1;
     Reward.map_uid_to_peerid := λ u, if (u =? 7)%Z then None else Some 1;
     Reward.get_random_uids := [7; 8; 9];
     Reward.probes :=
       λ i, match i with
            | 1%nat => Reward.ProbeOk 0%Q 2%Q
            | _ => Reward.ProbeRaises
            end;
     Reward.random_sample := λ population, population;
     Reward.batches := λ _, Examples.one_batch;
     Reward.stored := Examples.exact |}.

(** A response that timed out. *)
Definition silent_response : Reward.Response :=
  {| Reward.status_code := 408; Reward.loss_nonempty := false;
     Reward.gradient_test_index := Some 0;
     Reward.gradients := None |}.

(** A block cached at second 10 for 12 seconds. *)
Definition block_cache : Misc.BlockCache :=
  {| Misc._last_block := Some 100; Misc._last_block_time := 10%Q;
     Misc._block_cache_duration := 12%Q |}.

(** The cache of [ttl_get_block] before its first call and after a fetch
    of block 7 at second 100. *)
Definition ttl_empty : Misc.TtlCache :=
  {| Misc.start_time := None; Misc.entry := None |}.
Definition ttl_fetched : Misc.TtlCache :=
  {| Misc.start_time := Some 100%Q; Misc.entry := Some (0, 7) |}.

(** A round of the master in which the upload of the new state fails and
    no state can be loaded. *)
Definition upload_fails : DTRound.RoundEnv :=
  {| DTRound.allreduce := DTRound.AllReduceSucceeds;
     DTRound.scores_ok := true;
     DTRound.upload_ok := false;
     DTRound.fresh_global_epoch := Some (Some 4);
     DTRound.recovery := env_down |}.

End Scenarios.

(** * Properties *)

(** ** Traces *)

Lemma calls_app p tr1 tr2 : calls p (tr1 ++ tr2) = (calls p tr1 + calls p tr2)%nat.
Proof.
  induction tr1 as [|e tr1 IH]; simpl; [done|].
  destruct (p e); simpl; by rewrite IH.
Qed.

Lemma calls_zero p tr : (∀ e, e ∈ tr → p e = false) → calls p tr = 0%nat.
Proof.
  induction tr as [|e tr IH]; intros H; simpl; [done|].
  rewrite (H e) by left. apply IH. intros e' He'. apply H. by right.
Qed.

(** ** ModelLoadingManager *)

Section ModelLoadingManagerFacts.
Import ModelLoadingManager.

(** C10. [set_loading_state] always stores the flag it is given.  It
    leaves [last_loaded_epoch] as it was when called with [is_loading]
    true, whatever the epoch, and when called without an epoch, whatever
    the flag; called with [is_loading] false and an epoch it stores that
    epoch. *)
Theorem set_loading_state_frame :
  (∀ m epoch,
      last_loaded_epoch (set_loading_state m true epoch) = last_loaded_epoch m
      ∧ is_loading (set_loading_state m true epoch) = true)
  ∧ (∀ m flag,
      last_loaded_epoch (set_loading_state m flag None) = last_loaded_epoch m
      ∧ is_loading (set_loading_state m flag None) = flag)
  ∧ (∀ m e,
      last_loaded_epoch (set_loading_state m false (Some e)) = Some e
      ∧ is_loading (set_loading_state m false (Some e)) = false).
Proof.
  repeat split; try done.
  destruct flag; done.
Qed.

(** The field changes only through a call with a false flag and an epoch. *)
Lemma last_loaded_epoch_changes m flag epoch :
  last_loaded_epoch (set_loading_state m flag epoch) ≠ last_loaded_epoch m →
  flag = false ∧ ∃ e, epoch = Some e.
Proof.
  destruct flag, epoch as [e|]; cbn; try done.
  intros _. eauto.
Qed.
End ModelLoadingManagerFacts.

(** ** load_state_from_peer *)

Section LoadStateFacts.
Import StateLoader.

(** The retry loop ends by a successful load or by the exception of the
    third failure, and asks for one epoch only. *)
Lemma load_loop_cases env e :
  let r := load_loop env e (S MAX_ATTEMPTS) 0 in
  r = (LoopBreak, [LoadModel e true])
  ∨ r = (LoopBreak, [LoadModel e false; LoadModel e true])
  ∨ r = (LoopBreak, [LoadModel e false; LoadModel e false; LoadModel e true])
  ∨ r = (LoopRaise, [LoadModel e false; LoadModel e false; LoadModel e false]).
Proof.
  cbn.
  destruct (load_model_ok env 0); [by left|].
  destruct (load_model_ok env 1); [by right; left|].
  destruct (load_model_ok env 2); [by right; right; left|].
  by right; right; right.
Qed.

Lemma load_loop_spec env e r tr :
  load_loop env e (S MAX_ATTEMPTS) 0 = (r, tr) →
  (r = LoopBreak ∧ LoadModel e true ∈ tr ∨ r = LoopRaise)
  ∧ (∀ e' ok, LoadModel e' ok ∈ tr → e' = e)
  ∧ (∀ ev, ev ∈ tr → is_LoadModel ev = true).
Proof.
  intros Hloop.
  destruct (load_loop_cases env e) as [H|[H|[H|H]]];
    rewrite Hloop in H; apply pair_equal_spec in H as [-> ->];
    (split;
     [first [by right|left; split; [done|]; rewrite !elem_of_cons; tauto]|]);
    (split; [intros e' ok|intros ev];
     rewrite ?elem_of_cons, ?elem_of_nil;
     intuition (subst; try discriminate; try congruence; done)).
Qed.

(** A failed load leaves the local progress as it was. *)
Lemma load_state_from_peer_failure env s arg s' tr :
  load_state_from_peer env s arg = (false, s', tr) →
  local_epoch s' = local_epoch s
  ∧ local_samples_accumulated s' = local_samples_accumulated s.
Proof.
  unfold load_state_from_peer.
  destruct arg as [e|]; [|destruct (get_global_epoch env) as [g|]]; cbn -[load_loop].
  - destruct (global_epoch s) as [g|]; [|by intros [= <- <-]].
    destruct (load_loop _ _ _ _) as [r tr2]. destruct r; by intros [= <- <-].
  - destruct g as [g|]; cbn -[load_loop]; [|by intros [= <- <-]].
    destruct (load_loop _ _ _ _) as [r tr2]. destruct r; by intros [= <- <-].
  - by intros [= <- <-].
Qed.

(** C5, as the code has it.  A successful load leaves the local epoch equal
    to the global epoch with no accumulated samples.  The epoch asked from
    [load_model_optimizer_gradient_averager] is the epoch argument when
    the caller gives one, and otherwise the global epoch just read from
    [get_global_epoch]; it is the global epoch whenever the caller passes
    none or passes [self.global_progress.epoch]. *)
Theorem load_state_from_peer_success env s arg s' tr :
  load_state_from_peer env s arg = (true, s', tr) →
  ∃ g,
    global_epoch s' = Some g
    ∧ local_epoch s' = g
    ∧ local_samples_accumulated s' = 0
    ∧ LoadModel (default g arg) true ∈ tr
    ∧ (∀ e ok, LoadModel e ok ∈ tr → e = default g arg)
    ∧ (arg = None → get_global_epoch env = Some (Some g))
    ∧ (arg = None ∨ arg = global_epoch s → default g arg = g).
Proof.
  unfold load_state_from_peer.
  destruct arg as [e|]; [|destruct (get_global_epoch env) as [g|]]; cbn -[load_loop].
  - destruct (global_epoch s) as [g|] eqn:Hg; [|done].
    destruct (load_loop _ _ _ _) as [r tr2] eqn:Hloop.
    apply load_loop_spec in Hloop as ([[-> Hin]| ->] & Hall & _); [|done].
    intros [= <- <-]. exists g. cbn.
    split; [done|]. split; [done|]. split; [done|].
    split; [rewrite elem_of_app; by left|].
    split.
    { intros ev ok. rewrite elem_of_app, list_elem_of_singleton.
      intros [Hev|Hev]; [by apply (Hall ev ok)|done]. }
    split; [done|].
    intros [?|[= ->]]; done.
  - destruct g as [g|]; cbn -[load_loop]; [|done].
    destruct (load_loop _ _ _ _) as [r tr2] eqn:Hloop.
    apply load_loop_spec in Hloop as ([[-> Hin]| ->] & Hall & _); [|done].
    intros [= <- <-]. exists g. cbn.
    split; [done|]. split; [done|]. split; [done|].
    split; [right; rewrite elem_of_app; by left|].
    split; [|done].
    intros ev ok. rewrite elem_of_cons, elem_of_app, list_elem_of_singleton.
    intros [Hev|[Hev|Hev]]; [done|by apply (Hall ev ok)|done].
  - done.
Qed.
End LoadStateFacts.

(** ** save_and_upload_state *)

Section UploadFacts.
Import StateLoader.

Lemma is_AttemptOk_true a : is_AttemptOk a = true ↔ a = AttemptOk.
Proof. destruct a; split; done. Qed.

Lemma is_AttemptOk_false a : is_AttemptOk a = false ↔ a ≠ AttemptOk.
Proof. destruct a; split; done. Qed.

(** Every pass starts again at [save_pretrained] and never sleeps. *)
Lemma attempt_events_calls epoch a :
  calls is_SavePretrained (attempt_events epoch a) = 1%nat
  ∧ calls is_Sleep (attempt_events epoch a) = 0%nat
  ∧ ∃ ok rest, attempt_events epoch a = SavePretrained ok :: rest.
Proof. destruct a; cbn; eauto. Qed.

Lemma attempts_with_delays_calls delay epoch env attempt k :
  let tr := attempts_with_delays delay (passes epoch env attempt k) in
  calls is_SavePretrained tr = k ∧ calls is_Sleep tr = pred k.
Proof.
  revert attempt. induction k as [|k IH]; intros attempt; [done|].
  cbn [passes attempts_with_delays].
  destruct (attempt_events_calls epoch (env attempt)) as (Hsave & Hsleep & _).
  specialize (IH (attempt + 1)). cbn zeta in IH. destruct IH as [IH1 IH2].
  destruct k as [|k'].
  - cbn. rewrite app_nil_r. by rewrite Hsave, Hsleep.
  - cbn [passes] in *. rewrite !calls_app, Hsave, Hsleep. cbn [calls is_SavePretrained is_Sleep].
    rewrite IH1, IH2. done.
Qed.

Section Loop.
Variable limit : Z.
Variable delay : duration.
Variable epoch : Z.
Variable env : Z → upload_attempt.

Lemma upload_loop_spec fuel : ∀ attempt res tr,
  (Z.to_nat (limit - attempt) < fuel)%nat →
  upload_loop limit delay epoch env fuel attempt = (res, tr) →
  ∃ k : nat,
    (k ≤ Z.to_nat (limit - attempt))%nat
    ∧ tr = attempts_with_delays delay (passes epoch env attempt k)
    ∧ (∀ i : nat, (S i < k)%nat →
         is_AttemptOk (env (attempt + Z.of_nat i)) = false)
    ∧ match res with
      | Returned true =>
          (0 < k)%nat
          ∧ is_AttemptOk (env (attempt + Z.of_nat (pred k))) = true
      | Returned false => k = 0%nat ∧ limit ≤ attempt
      | Raised =>
          k = Z.to_nat (limit - attempt) ∧ (0 < k)%nat
          ∧ is_AttemptOk (env (attempt + Z.of_nat (pred k))) = false
      end.
Proof.
  induction fuel as [|fuel' IH]; intros attempt res tr Hfuel; [lia|].
  cbn [upload_loop].
  destruct (attempt <? limit) eqn:Hlt.
  2:{ intros [= <- <-]. exists 0%nat. repeat split; [lia|lia|lia]. }
  apply Z.ltb_lt in Hlt.
  destruct (is_AttemptOk (env attempt)) eqn:Hok.
  { intros [= <- <-]. exists 1%nat. cbn. rewrite app_nil_r, Z.add_0_r.
    repeat split; [lia|lia|lia|done]. }
  destruct (attempt + 1 <? limit) eqn:Hlt'.
  2:{ apply Z.ltb_ge in Hlt'. intros [= <- <-]. exists 1%nat. cbn.
      rewrite app_nil_r, Z.add_0_r. repeat split; [lia|lia|lia|lia|done]. }
  apply Z.ltb_lt in Hlt'.
  destruct (upload_loop limit delay epoch env fuel' (attempt + 1))
    as [r tr'] eqn:Hrec.
  intros [= <- <-].
  apply IH in Hrec as (k & Hk & -> & Hfail & Hres); [|lia].
  assert (0 < k)%nat as Hpos.
  { destruct r as [[|]|]; [lia|lia|lia]. }
  exists (S k). split; [lia|]. split.
  { cbn [passes attempts_with_delays]. destruct k; [lia|]. done. }
  split.
  { intros [|i] Hi; [by rewrite Z.add_0_r|].
    replace (attempt + Z.of_nat (S i)) with (attempt + 1 + Z.of_nat i) by lia.
    apply Hfail. lia. }
  replace (attempt + Z.of_nat (pred (S k)))
    with (attempt + 1 + Z.of_nat (pred k)) by lia.
  destruct r as [[|]|]; [split; [lia|tauto]|lia|].
  destruct Hres as (-> & _ & Hlast). repeat split; [lia|lia|done].
Qed.
End Loop.

(** C3.  [save_and_upload_state] makes [k] passes, at most
    [model_upload_retry_limit]; every pass runs the whole sequence again
    from [save_pretrained], so a pass in which the upload went through and
    the tag creation raised is started afresh; two consecutive passes are
    separated by one sleep of [model_upload_retry_delay]; every pass but
    the last has failed.  The call returns [True] only if its last pass
    succeeded; when all the passes allowed have failed the exception of
    the last one is raised to the caller, and [False] is returned only
    when the limit allows no pass at all. *)
Theorem save_and_upload_state_retries limit delay epoch env res tr :
  save_and_upload_state limit delay epoch env = (res, tr) →
  ∃ k : nat,
    (k ≤ Z.to_nat limit)%nat
    ∧ tr = attempts_with_delays delay (passes epoch env 0 k)
    ∧ calls is_SavePretrained tr = k
    ∧ calls is_Sleep tr = pred k
    ∧ (∀ i : nat, (S i < k)%nat → env (Z.of_nat i) ≠ AttemptOk)
    ∧ match res with
      | Returned true => (0 < k)%nat ∧ env (Z.of_nat (pred k)) = AttemptOk
      | Returned false => k = 0%nat ∧ limit ≤ 0
      | Raised =>
          k = Z.to_nat limit ∧ (0 < k)%nat
          ∧ env (Z.of_nat (pred k)) ≠ AttemptOk
      end.
Proof.
  unfold save_and_upload_state. intros Hrun.
  apply upload_loop_spec in Hrun as (k & Hk & -> & Hfail & Hres);
    [|rewrite Z.sub_0_r; lia].
  rewrite Z.sub_0_r in *. cbn [Z.add] in *.
  exists k. split; [done|]. split; [done|].
  destruct (attempts_with_delays_calls delay epoch env 0 k) as [Hsave Hsleep].
  split; [done|]. split; [done|]. split.
  { intros i Hi. apply is_AttemptOk_false. by apply Hfail. }
  destruct res as [[|]|].
  - by rewrite <-is_AttemptOk_true.
  - done.
  - by rewrite <-is_AttemptOk_false.
Qed.

(** The calls of one pass: the tag is asked for last, for the epoch given
    and right after the upload of that epoch has gone through. *)
Lemma attempt_events_tags epoch a :
  (is_AttemptOk a = true →
   attempt_events epoch a
   = [SavePretrained true; SaveOptimizer epoch true; UploadFolder epoch true;
      CreateTag epoch true])
  ∧ (is_AttemptOk a = false → calls is_tag_created (attempt_events epoch a) = 0%nat)
  ∧ (∀ i tag ok, attempt_events epoch a !! i = Some (CreateTag tag ok) →
       tag = epoch
       ∧ ∃ j, i = S j ∧ attempt_events epoch a !! j = Some (UploadFolder epoch true))
  ∧ (∀ e, e ∈ attempt_events epoch a → is_upload_call e = true).
Proof.
  destruct a; cbn; (split; [done|]); (split; [done|]); split.
  all: try (intros [|[|[|[|i]]]] tag ok; cbn; intros [= <- <-]; split; [done|];
            by exists 2%nat).
  all: try (intros [|[|[|[|i]]]] tag ok; by cbn).
  all: intros e; rewrite ?elem_of_cons, ?elem_of_nil; intuition (subst; done).
Qed.

Lemma upload_loop_tags limit delay epoch env fuel : ∀ attempt res tr,
  upload_loop limit delay epoch env fuel attempt = (res, tr) →
  calls is_tag_created tr = match res with Returned true => 1%nat | _ => 0%nat end
  ∧ (∀ i tag ok, tr !! i = Some (CreateTag tag ok) →
       tag = epoch ∧ ∃ j, i = S j ∧ tr !! j = Some (UploadFolder epoch true))
  ∧ (res = Returned true →
     ∃ tr0, tr = tr0 ++ [SavePretrained true; SaveOptimizer epoch true;
                         UploadFolder epoch true; CreateTag epoch true])
  ∧ (∀ e, e ∈ tr → is_upload_call e = true).
Proof.
  induction fuel as [|fuel' IH]; intros attempt res tr; cbn [upload_loop].
  { intros [= <- <-]. split; [done|]. split; [done|]. split; [done|].
    intros e. by rewrite elem_of_nil. }
  destruct (attempt <? limit).
  2:{ intros [= <- <-]. split; [done|]. split; [done|]. split; [done|].
      intros e. by rewrite elem_of_nil. }
  destruct (attempt_events_tags epoch (env attempt)) as (Hok & Hfail & Htag & Hcalls).
  destruct (is_AttemptOk (env attempt)) eqn:Ha.
  { intros [= <- <-]. split; [by rewrite (Hok eq_refl)|]. split; [done|].
    split; [intros _; exists []; by rewrite (Hok eq_refl)|done]. }
  specialize (Hfail eq_refl).
  destruct (attempt + 1 <? limit).
  2:{ intros [= <- <-]. done. }
  destruct (upload_loop limit delay epoch env fuel' (attempt + 1))
    as [r tr'] eqn:Hrec.
  destruct (IH _ _ _ Hrec) as (Hcount & Htags & Hlast & Hcalls').
  intros [= <- <-]. rewrite calls_app, Hfail. cbn [calls is_tag_created is_Sleep].
  split; [done|]. split; [|split].
  - intros i tag ok Hi. apply lookup_app_Some in Hi as [Hi|[Hlen Hi]].
    + destruct (Htag _ _ _ Hi) as (-> & j & -> & Hj). split; [done|].
      exists j. split; [done|]. by apply lookup_app_l_Some.
    + destruct (i - length (attempt_events epoch (env attempt)))%nat
        as [|k] eqn:Hk; [done|].
      cbn in Hi. destruct (Htags _ _ _ Hi) as (-> & j & -> & Hj).
      split; [done|].
      exists (length (attempt_events epoch (env attempt)) + S j)%nat.
      split; [lia|].
      apply lookup_app_Some. right. split; [lia|].
      by replace (length (attempt_events epoch (env attempt)) + S j
                  - length (attempt_events epoch (env attempt)))%nat
        with (S j) by lia.
  - intros Hr. destruct (Hlast Hr) as [tr0 ->].
    exists (attempt_events epoch (env attempt) ++ Sleep delay :: tr0).
    by rewrite <-app_assoc.
  - intros e. rewrite elem_of_app, elem_of_cons. intros [H|[->|H]]; auto.
Qed.

Lemma calls_tag_created tr :
  (0 < calls is_tag_created tr)%nat ↔ ∃ tag, CreateTag tag true ∈ tr.
Proof.
  induction tr as [|e tr IH]; cbn.
  { split; [lia|]. intros [tag H]. by apply elem_of_nil in H. }
  split.
  - destruct (is_tag_created e) eqn:He.
    + intros _. destruct e as [| | | | | | |tag [|]| | | | | |]; try done.
      exists tag. by left.
    + intros H. apply IH in H as [tag H]. exists tag. by right.
  - intros [tag H]. apply elem_of_cons in H as [<-|H]; [cbn; lia|].
    assert (0 < calls is_tag_created tr)%nat by (apply IH; eauto).
    destruct (is_tag_created e); lia.
Qed.

(** C2, as the code has it.  [save_and_upload_state] never reads the tags
    of the store and never loads a state: the only calls it makes are
    [save_pretrained], [torch.save] of the optimizer state,
    [upload_folder], [create_tag] and [time.sleep].  Every tag it asks
    for is the epoch it was given, whatever tags exist, and it returns
    [True] exactly when the creation of that tag went through. *)
Theorem save_and_upload_state_reads_no_tags limit delay epoch env res tr :
  save_and_upload_state limit delay epoch env = (res, tr) →
  (∀ e, e ∈ tr → is_upload_call e = true)
  ∧ (ListRepoRefs ∉ tr)
  ∧ calls is_load_call tr = 0%nat
  ∧ (∀ tag ok, CreateTag tag ok ∈ tr → tag = epoch)
  ∧ (res = Returned true ↔ CreateTag epoch true ∈ tr).
Proof.
  intros Hrun. apply upload_loop_tags in Hrun as (Hcount & Htags & _ & Hcalls).
  assert (∀ tag ok, CreateTag tag ok ∈ tr → tag = epoch) as Htag.
  { intros tag ok Hin. apply list_elem_of_lookup in Hin as [i Hi].
    by destruct (Htags _ _ _ Hi). }
  split; [done|]. split; [by intros H%Hcalls|].
  split.
  { apply calls_zero. intros e He. specialize (Hcalls e He). by destruct e. }
  split; [done|]. split.
  - intros ->. destruct (proj1 (calls_tag_created tr)) as [tag Hin]; [lia|].
    by rewrite <-(Htag _ _ Hin).
  - intros Hin.
    assert (0 < calls is_tag_created tr)%nat as Hpos
      by (apply calls_tag_created; eauto).
    destruct res as [[|]|]; [done|lia|lia].
Qed.
End UploadFacts.

(** ** The calls of load_state_from_peer *)

Section PublishFacts.
Import StateLoader TemplateForward CallRuns.

(** [load_state_from_peer] calls the hub for reading only. *)
Lemma load_state_from_peer_calls env s arg b s' tr :
  load_state_from_peer env s arg = (b, s', tr) →
  ∀ ev, ev ∈ tr → is_load_call ev = true.
Proof.
  unfold load_state_from_peer.
  assert (∀ e r tr2, load_loop env e (S MAX_ATTEMPTS) 0 = (r, tr2) →
            ∀ ev, ev ∈ tr2 → is_load_call ev = true) as Hloop.
  { intros e r tr2 H ev Hev. apply load_loop_spec in H as (_ & _ & H).
    specialize (H ev Hev). by destruct ev. }
  destruct arg as [e|]; [|destruct (get_global_epoch env) as [g|]]; cbn -[load_loop].
  - destruct (global_epoch s) as [g|].
    2:{ intros [= <- <- <-] ev. by rewrite elem_of_nil. }
    destruct (load_loop _ _ _ _) as [r tr2] eqn:Hl. specialize (Hloop _ _ _ Hl).
    destruct r; intros [= <- <- <-] ev; rewrite ?elem_of_app, ?list_elem_of_singleton;
      intuition (subst; auto).
  - destruct g as [g|]; cbn -[load_loop].
    2:{ intros [= <- <- <-] ev. rewrite list_elem_of_singleton. by intros ->. }
    destruct (load_loop _ _ _ _) as [r tr2] eqn:Hl. specialize (Hloop _ _ _ Hl).
    destruct r; intros [= <- <- <-] ev;
      rewrite ?elem_of_cons, ?elem_of_app, ?list_elem_of_singleton;
      intuition (subst; auto).
  - intros [= <- <- <-] ev. rewrite list_elem_of_singleton. by intros ->.
Qed.

Lemma load_call_is_publish_call e : is_load_call e = true → is_publish_call e = true.
Proof. by destruct e. Qed.

Lemma try_push_calls epoch a r tr :
  try_push epoch a = (r, tr) →
  (∀ e, e ∈ tr → is_publish_call e = true)
  ∧ calls is_PushToHub tr = 1%nat
  ∧ calls is_Sleep tr = 0%nat
  ∧ (r = CallOk → CreateTag epoch true ∈ tr).
Proof.
  unfold try_push.
  destruct (push_to_hub_r a), (create_tag_r a); intros [= <- <-];
    (split; [intros e; rewrite ?elem_of_cons, ?elem_of_nil;
             intuition (subst; done)|]);
    (split; [done|]); (split; [done|]);
    intros Hr; rewrite ?elem_of_cons; try discriminate; auto.
Qed.

Lemma push_loop_calls limit delay tag_name hub fuel : ∀ n attempt s st s' tr,
  push_loop limit delay tag_name hub fuel n attempt s = (st, s', tr) →
  ∀ e, e ∈ tr → is_publish_call e = true.
Proof.
  induction fuel as [|fuel' IH]; intros n attempt s st s' tr; cbn [push_loop].
  { intros [= <- <- <-] e. by rewrite elem_of_nil. }
  destruct (attempt <? limit).
  2:{ intros [= <- <- <-] e. by rewrite elem_of_nil. }
  destruct (try_push (local_epoch s) (hub n)) as [r tr0] eqn:Htry.
  apply try_push_calls in Htry as (Htr0 & _).
  destruct r.
  - intros [= <- <- <-]. done.
  - destruct (load_state_from_peer _ s (Some tag_name)) as [[loaded s1] tr1] eqn:Hload.
    pose proof (load_state_from_peer_calls _ _ _ _ _ _ Hload) as Hcalls.
    destruct loaded.
    + intros [= <- <- <-] e. rewrite elem_of_app.
      intros [H|H]; [auto|]. apply load_call_is_publish_call; auto.
    + destruct (push_loop _ _ _ _ fuel' (S n) attempt s1) as [[st2 s2] tr2] eqn:Hrec.
      intros [= <- <- <-] e. rewrite !elem_of_app.
      intros [H|[H|H]]; [auto|apply load_call_is_publish_call; auto|].
      eapply IH; eauto.
  - destruct (attempt + 1 <? limit).
    2:{ intros [= <- <- <-]. done. }
    destruct (push_loop _ _ _ _ fuel' (S n) (attempt + 1) s) as [[st2 s2] tr2] eqn:Hrec.
    intros [= <- <- <-] e. rewrite elem_of_app, elem_of_cons.
    intros [H|[->|H]]; [auto|done|]. eapply IH; eauto.
Qed.

Lemma publish_new_state_calls limit delay tags hub fuel s st s' tr :
  publish_new_state limit delay tags hub fuel s = (st, s', tr) →
  ∃ tr', tr = ResetAccumulatedGrads :: tr'
         ∧ ∀ e, e ∈ tr' → is_publish_call e = true.
Proof.
  unfold publish_new_state.
  assert (∀ e, e ∈ [ListRepoRefs] → is_publish_call e = true) as Hrefs.
  { intros e. rewrite list_elem_of_singleton. by intros ->. }
  destruct (max_tag tags) as [t|].
  2:{ intros [= <- <- <-]. by eexists. }
  destruct (t <? _).
  2:{ intros [= <- <- <-]. by eexists. }
  destruct (push_loop _ _ _ _ _ _ _ _) as [[st2 s2] tr2] eqn:Hloop.
  intros [= <- <- <-]. eexists. split; [done|].
  intros e. rewrite elem_of_cons. intros [->|H]; [done|].
  by eapply push_loop_calls.
Qed.

Lemma calls_publish p tr :
  (∀ e, is_publish_call e = true → p e = false) →
  (∀ e, e ∈ tr → is_publish_call e = true) →
  calls p tr = 0%nat.
Proof. intros Hp Htr. apply calls_zero. auto. Qed.

End PublishFacts.

(** ** Waiting for the averaging step (template validator) *)

Section TimeoutFacts.
Import StateLoader TemplateForward.

Lemma overrun_seconds_nonneg o : (0 <= overrun_seconds o)%Q.
Proof. unfold overrun_seconds, Qle. cbn. lia. Qed.

Lemma reading_step overruns elapsed k :
  (reading overruns elapsed k + 1 <= reading overruns elapsed (S k))%Q.
Proof.
  cbn [reading]. pose proof (overrun_seconds_nonneg (overruns k)). lra.
Qed.

Lemma Qfloor_step (x y : Q) : (x + 1 <= y)%Q → Qfloor x + 1 ≤ Qfloor y.
Proof.
  intros Hxy. rewrite <-(Qfloor_Z (Qfloor x + 1)). apply Qfloor_resp_le.
  rewrite inject_Z_plus. pose proof (Qfloor_le x). change (inject_Z 1) with 1%Q. lra.
Qed.

(** With the fuel [wait_for_averaging] gives it, the loop stops because
    its condition is false: the step is done or the reading of the clock
    is past the timeout. *)
Lemma wait_loop_exit c timeout overruns elapsed fuel : ∀ n t tr,
  (Z.to_nat (timeout + 1 - Qfloor (reading overruns elapsed n)) < fuel)%nat →
  wait_loop c timeout overruns fuel n (reading overruns elapsed n) = (t, tr) →
  ∃ k : nat,
    t = reading overruns elapsed (n + k)
    ∧ tr = replicate k (Sleep 1)
    ∧ (done c t = true ∨ (inject_Z timeout < t)%Q)
    ∧ (∀ j, (n ≤ j < n + k)%nat →
         done c (reading overruns elapsed j) = false
         ∧ (reading overruns elapsed j <= inject_Z timeout)%Q)
    ∧ (k ≤ Z.to_nat (timeout + 1 - Qfloor (reading overruns elapsed n)))%nat.
Proof.
  induction fuel as [|fuel' IH]; intros n t tr Hfuel; [lia|].
  cbn [wait_loop].
  destruct (done c (reading overruns elapsed n)) eqn:Hd; cbn [negb andb].
  { intros [= <- <-]. exists 0%nat. rewrite Nat.add_0_r.
    split_and!; [done|done|by left|lia|lia]. }
  destruct (Qle_bool _ _) eqn:Hle.
  2:{ intros [= <- <-]. exists 0%nat. rewrite Nat.add_0_r.
      split_and!; [done|done| |lia|lia].
      right. apply Qnot_le_lt. intros H. apply Qle_bool_iff in H. congruence. }
  apply Qle_bool_iff in Hle.
  change (reading overruns elapsed n + 1 + overrun_seconds (overruns n))%Q
    with (reading overruns elapsed (S n)).
  destruct (wait_loop c timeout overruns fuel' (S n) _) as [t' tr'] eqn:Hrec.
  intros [= <- <-].
  assert (Qfloor (reading overruns elapsed n) ≤ timeout) as Hfloor.
  { rewrite <-(Qfloor_Z timeout). by apply Qfloor_resp_le. }
  pose proof (Qfloor_step _ _ (reading_step overruns elapsed n)) as Hstep.
  apply IH in Hrec as (k & -> & -> & Hexit & Hbefore & Hk); [|lia].
  exists (S k). replace (n + S k)%nat with (S n + k)%nat by lia.
  split_and!; [done|done|done| |lia].
  intros j Hj. destruct (decide (j = n)) as [->|Hne]; [done|].
  apply Hbefore. lia.
Qed.

(** [wait_for_averaging] returns at the first reading of the clock at
    which the step is done or the timeout is exceeded, after one sleep
    for each reading before that one. *)
Lemma wait_for_averaging_stops c timeout overruns elapsed t tr :
  wait_for_averaging c timeout overruns elapsed = (t, tr) →
  ∃ k : nat,
    t = reading overruns elapsed k
    ∧ tr = replicate k (Sleep 1)
    ∧ (done c t = true ∨ (inject_Z timeout < t)%Q)
    ∧ (∀ j, (j < k)%nat →
         done c (reading overruns elapsed j) = false
         ∧ (reading overruns elapsed j <= inject_Z timeout)%Q)
    ∧ (k ≤ Z.to_nat (timeout + 1 - Qfloor elapsed))%nat.
Proof.
  unfold wait_for_averaging. intros Hrun.
  apply (wait_loop_exit c timeout overruns elapsed) in Hrun
    as (k & -> & -> & Hexit & Hbefore & Hk); [|cbn [reading]; lia].
  exists k. split_and!; try done. intros j Hj. apply Hbefore. lia.
Qed.

Lemma calls_replicate_Sleep p n d :
  p (Sleep d) = false → calls p (replicate n (Sleep d)) = 0%nat.
Proof. intros Hp. induction n as [|n IH]; cbn; [done|]. by rewrite Hp. Qed.

Lemma calls_load p tr :
  (∀ ev, is_load_call ev = true → p ev = false) →
  (∀ ev, ev ∈ tr → is_load_call ev = true) →
  calls p tr = 0%nat.
Proof. intros Hp Htr. apply calls_zero. auto. Qed.

End TimeoutFacts.

(** ** The routine check and the schedule *)

Section ScheduleFacts.

(** The template validator loads exactly when a global epoch is known and
    the local epoch is below it. *)
Lemma template_recovery_triggered_iff s :
  TemplateForward.recovery_triggered s = true
  ↔ ∃ g, global_epoch s = Some g ∧ local_epoch s < g.
Proof.
  unfold TemplateForward.recovery_triggered.
  destruct (global_epoch s) as [g|].
  - rewrite Z.ltb_lt. split; [by exists g|]. by intros (? & [= <-] & ?).
  - split; [done|]. by intros (? & ? & _).
Qed.

(** The distributed_training validator loads whenever the two epochs
    differ, in either direction. *)
Lemma dt_recovery_triggered_iff s :
  DTForward.recovery_triggered s = true
  ↔ global_epoch s ≠ Some (local_epoch s).
Proof.
  unfold DTForward.recovery_triggered.
  rewrite negb_true_iff, bool_decide_eq_false. split; intros H ?; by apply H.
Qed.

(** Line 54 makes the schedule of the distributed_training validator
    independent of the blocks elapsed. *)
Lemma dt_should_allreduce_always cfg block last_allreduce_block :
  DTForward.should_allreduce cfg block last_allreduce_block = true.
Proof. done. Qed.

(** C7, as the code has it.  The template validator runs an all-reduce
    exactly when the local samples accumulated are at least 25, a constant
    of the code, and reads no elapsed time.  The test of line 53 of the
    distributed_training validator holds exactly when the blocks since the
    last all-reduce are at least the configured [blocks_per_allreduce],
    and reads no sample count. *)
Theorem round_due_decisions :
  (∀ s, TemplateForward.all_reduce_due s = true
        ↔ 25 ≤ local_samples_accumulated s)
  ∧ (∀ cfg block last_allreduce_block,
       DTForward.interval_reached cfg block last_allreduce_block = true
       ↔ DTForward.blocks_per_allreduce cfg ≤ block - last_allreduce_block).
Proof.
  split.
  - intros s. unfold TemplateForward.all_reduce_due. apply Z.leb_le.
  - intros cfg block l.
    unfold DTForward.interval_reached, DTForward.blocks_since_allreduce.
    apply Z.leb_le.
Qed.
End ScheduleFacts.

(** ** The polling loop of the master *)

Section PollingFacts.
Import DTForward.

(** When the loop ends, the miners found and the validator itself make
    up at least [min_group_size] peers. *)
Lemma get_active_miners_enough cfg polls fuel : ∀ n miner_uids found k,
  get_active_miners cfg polls fuel n miner_uids = Some (found, k) →
  min_group_size cfg ≤ Z.of_nat (length found) + 1.
Proof.
  induction fuel as [|fuel' IH]; intros n uids found k; cbn; [done|].
  destruct (Z.of_nat (length uids) <? min_group_size cfg - 1) eqn:Hlt.
  - apply IH.
  - apply Z.ltb_ge in Hlt. intros [= <- <-]. lia.
Qed.

(** While every answer has too few miners the loop goes on. *)
Lemma get_active_miners_starved cfg polls :
  (∀ i, too_few cfg (polls i)) →
  ∀ fuel n miner_uids,
    too_few cfg miner_uids →
    get_active_miners cfg polls fuel n miner_uids = None.
Proof.
  intros Hpolls. induction fuel as [|fuel' IH]; intros n uids Huids; cbn; [done|].
  unfold too_few in Huids. apply Z.ltb_lt in Huids. rewrite Huids. by apply IH.
Qed.

Lemma get_active_miners_reaches cfg polls k :
  ¬ too_few cfg (polls k) →
  (∀ i, (i < k)%nat → too_few cfg (polls i)) →
  ∀ d n miner_uids fuel,
    (n + d = k)%nat → too_few cfg miner_uids → (S d < fuel)%nat →
    get_active_miners cfg polls fuel n miner_uids = Some (polls k, S k).
Proof.
  intros Hk Hbefore. induction d as [|d IH]; intros n uids fuel Hn Huids Hfuel.
  - replace n with k in * by lia.
    destruct fuel as [|[|fuel]]; [lia|lia|]. cbn.
    unfold too_few in *. apply Z.ltb_lt in Huids. rewrite Huids.
    apply Z.nlt_ge, Z.ltb_ge in Hk. by rewrite Hk.
  - destruct fuel as [|fuel]; [lia|]. cbn [get_active_miners].
    pose proof Huids as Huids'.
    unfold too_few in Huids'. apply Z.ltb_lt in Huids'. rewrite Huids'.
    apply IH; [lia|apply Hbefore; lia|lia].
Qed.

(** C8, as the code has it.  The master polls [get_random_uids] again for
    as long as the answer has fewer than [min_group_size - 1] miners; the
    loop ends at the first answer with enough of them, after as many polls
    as that takes, and the miners found make a group of at least
    [min_group_size] with the validator. *)
Theorem get_active_miners_polls_until_enough cfg polls k fuel :
  1 < min_group_size cfg →
  (∀ i, (i < k)%nat → Z.of_nat (length (polls i)) < min_group_size cfg - 1) →
  min_group_size cfg - 1 ≤ Z.of_nat (length (polls k)) →
  (S k < fuel)%nat →
  get_active_miners cfg polls fuel 0 [] = Some (polls k, S k)
  ∧ min_group_size cfg ≤ Z.of_nat (length (polls k)) + 1.
Proof.
  intros Hmin Hbefore Hk Hfuel. split; [|lia].
  apply (get_active_miners_reaches cfg polls k) with (d := k);
    unfold too_few; cbn; [lia|done|done|lia|done].
Qed.
End PollingFacts.

(** ** Scores *)

Section RewardFacts.
Import Reward.
#[local] Open Scope Q_scope.

(** [score_blacklist] overwrites the scores of the uids with 0 or 1 and
    leaves the others. *)
Lemma score_blacklist_loop_spec resolve uids : ∀ i peer_ids scores peer_ids' scores',
  score_blacklist_loop resolve uids i peer_ids scores = Some (peer_ids', scores') →
  length scores' = length scores
  ∧ ∀ j x, scores' !! j = Some x →
      ((i ≤ j < i + length uids)%nat → x = 0 ∨ x = 1)
      ∧ (¬ (i ≤ j < i + length uids)%nat → scores !! j = Some x).
Proof.
  induction uids as [|u uids IH]; intros i ps sc ps' sc'; cbn [score_blacklist_loop].
  { intros [= <- <-]. cbn. repeat split; [lia|done]. }
  destruct (i <? length sc)%nat eqn:Hi; [|done].
  apply Nat.ltb_lt in Hi. intros Hrec.
  apply IH in Hrec as (Hlen & Hrec).
  rewrite length_insert in Hlen. cbn [length].
  split; [done|].
  intros j x Hj. destruct (Hrec j x Hj) as [Hin Hout]. split.
  - intros Hrange. destruct (decide (j = i)) as [->|Hne].
    + rewrite list_lookup_insert_eq in Hout by done.
      assert (¬ (S i ≤ i < S i + length uids)%nat) as Hn by lia.
      specialize (Hout Hn). injection Hout as <-.
      destruct (resolve u); [by right|by left].
    + apply Hin. lia.
  - intros Hrange. rewrite <-Hout by lia. symmetry. apply list_lookup_insert_ne. lia.
Qed.

Lemma response_scores_01 (uids : list uid) (responses0 : list Response) i x :
  map (λ '(_, r), if responded r then 1 else 0) (zip uids responses0) !! i = Some x →
  x = 0 ∨ x = 1.
Proof.
  rewrite list_lookup_fmap. destruct (zip uids responses0 !! i) as [[u r]|]; [|done].
  cbn. intros [= <-]. destruct (responded r); [by right|by left].
Qed.

(** C9, as the code has it.  Every score that [score_blacklist] writes is
    0 or 1.  [score_gradients] returns exactly when the loader has yielded
    a batch, the layer index is an integer that selects a component of
    the gradients of the last batch whose sum is a float, and the
    response carries a float as its gradient sum; what it then returns is
    1 minus the distance of the two sums, computed in floating point, to
    which no lower bound is applied. *)
Theorem score_gradients_unclamped :
  (∀ resolve uids scores peer_ids scores' i x,
     score_blacklist resolve uids scores = Some (peer_ids, scores') →
     (i < length uids)%nat → scores' !! i = Some x → x = 0 ∨ x = 1)
  ∧ (∀ batches index response_gradients x,
       score_gradients batches index response_gradients = Some x
       ↔ ∃ gradients i g r,
           last batches = Some gradients
           ∧ index = Some i
           ∧ py_index gradients i = Some (Some g)
           ∧ response_gradients = Some r
           ∧ x = (1 - abs (g - r))%float).
Proof.
  split.
  - intros resolve uids scores peer_ids scores' i x Hrun Hi Hx.
    unfold score_blacklist in Hrun.
    apply score_blacklist_loop_spec in Hrun as [_ H].
    apply (H i x Hx). lia.
  - intros batches index response_gradients x. unfold score_gradients. split.
    + destruct (last batches) as [gradients|]; [|done].
      destruct index as [i|]; [cbn|done].
      destruct (py_index gradients i) as [[g|]|] eqn:Hindex; [|done|done].
      destruct response_gradients as [r|]; [|done].
      intros [= <-]. by exists gradients, i, g, r.
    + intros (gradients & i & g & r & -> & -> & Hindex & -> & ->).
      cbn. by rewrite Hindex.
Qed.

(** With a clock that does not run backwards the bandwidth score of a
    peer is not negative. *)
Lemma bandwidth_score_nonneg peer p :
  (∀ start_time end_time, p = ProbeOk start_time end_time → start_time <= end_time) →
  0 <= bandwidth_score peer p.
Proof.
  intros Hclock. unfold bandwidth_score.
  destruct peer; [|lra]. destruct p as [| |st en]; [lra|lra|].
  specialize (Hclock st en eq_refl).
  destruct (Qeq_bool (en - st) 0) eqn:Hz; [lra|].
  apply Qeq_bool_neq in Hz.
  apply Qlt_le_weak, Qlt_shift_div_l; lra.
Qed.
End RewardFacts.

(** ** The order of a group *)

Section GroupFacts.
Import GradAveragerTest.

Section Sorting.
Variable xor_id : PeerID → Z.

Lemma insert_by_key_perm p l : insert_by_key xor_id p l ≡ₚ p :: l.
Proof.
  induction l as [|q l IH]; cbn; [done|].
  destruct (xor_id p <=? xor_id q); [done|].
  rewrite IH. apply Permutation_swap.
Qed.

Lemma sort_by_key_perm l : sort_by_key xor_id l ≡ₚ l.
Proof.
  induction l as [|p l IH]; cbn; [done|].
  by rewrite insert_by_key_perm, IH.
Qed.

Lemma insert_by_key_sorted p l :
  Sorted (by_key xor_id) l → Sorted (by_key xor_id) (insert_by_key xor_id p l).
Proof.
  induction 1 as [|q l Hsorted IH Hhd]; cbn.
  { by repeat constructor. }
  destruct (xor_id p <=? xor_id q) eqn:Hle.
  - apply Z.leb_le in Hle. by repeat constructor.
  - apply Z.leb_gt in Hle. constructor; [done|].
    destruct Hhd as [|r l' Hqr]; cbn.
    + constructor. unfold by_key. lia.
    + destruct (xor_id p <=? xor_id r); constructor; unfold by_key in *; lia.
Qed.

Lemma sort_by_key_sorted l : Sorted (by_key xor_id) (sort_by_key xor_id l).
Proof.
  induction l as [|p l IH]; cbn; [constructor|]. by apply insert_by_key_sorted.
Qed.

#[local] Instance by_key_trans : Transitive (by_key xor_id).
Proof. intros p q r. unfold by_key. lia. Qed.

Lemma sort_by_key_deterministic l l' :
  l ≡ₚ l' →
  (∀ p q, p ∈ l → q ∈ l → xor_id p = xor_id q → p = q) →
  sort_by_key xor_id l = sort_by_key xor_id l'.
Proof.
  intros Hperm Hinj.
  apply (Sorted_unique_strong (by_key xor_id)); try apply sort_by_key_sorted.
  - intros p q Hp Hq Hpq Hqp.
    rewrite sort_by_key_perm in Hp. rewrite sort_by_key_perm, <-Hperm in Hq.
    apply Hinj; [done|done|]. unfold by_key in *. lia.
  - by rewrite !sort_by_key_perm.
Qed.
End Sorting.

(** C1, as the code has it.  The only ordering of peers in the sources is
    the sort of the script, which orders the local peer and its remote
    peers by [xor_id], a key of the peer alone in which the group id has
    no part: the result is sorted by that key and holds the same peers,
    and two enumerations of the same peers on which the key is injective
    give the same sequence. *)
Theorem ordered_peer_ids_order
    xor_id dht_peer_id remote_peer dht_peer_id' remote_peer' :
  dht_peer_id :: remote_peer ≡ₚ dht_peer_id' :: remote_peer' →
  (∀ p q, p ∈ dht_peer_id :: remote_peer → q ∈ dht_peer_id :: remote_peer →
          xor_id p = xor_id q → p = q) →
  ordered_peer_ids xor_id dht_peer_id remote_peer
    = ordered_peer_ids xor_id dht_peer_id' remote_peer'
  ∧ Sorted (by_key xor_id) (ordered_peer_ids xor_id dht_peer_id remote_peer)
  ∧ ordered_peer_ids xor_id dht_peer_id remote_peer ≡ₚ dht_peer_id :: remote_peer.
Proof.
  intros Hperm Hinj. split; [|split].
  - by apply sort_by_key_deterministic.
  - apply sort_by_key_sorted.
  - apply sort_by_key_perm.
Qed.
End GroupFacts.

(** ** Concrete runs of the code *)

Section Runs.
Import StateLoader Examples.

(** *** Group order *)

(** C1 does not hold on the code.  The sort of the script does not read
    the group id: whatever key [xor_id] stands for, the order it gives to
    the peers 1 and 2 is not the order of their XOR distances both to the
    group id of the script and to the group id that differs from it in
    its two lowest bits, since these two orders are opposite. *)
Lemma ordered_peer_ids_counterexample :
  ¬ ∃ xor_id : PeerID → Z,
      Sorted (λ p q, Spec.spec_distance GradAveragerTest.group_id p
                     ≤ Spec.spec_distance GradAveragerTest.group_id q)
             (GradAveragerTest.ordered_peer_ids xor_id 1 [2])
      ∧ Sorted (λ p q, Spec.spec_distance (Z.lxor GradAveragerTest.group_id 3) p
                       ≤ Spec.spec_distance (Z.lxor GradAveragerTest.group_id 3) q)
               (GradAveragerTest.ordered_peer_ids xor_id 1 [2]).
Proof.
  intros (xor_id & Hown & Hother).
  unfold GradAveragerTest.ordered_peer_ids, GradAveragerTest.sort_by_key in *.
  cbn [foldr GradAveragerTest.insert_by_key] in *.
  destruct (xor_id 1 <=? xor_id 2).
  - apply Sorted_inv in Hother as [_ H]. apply HdRel_inv in H.
    vm_compute in H. by apply H.
  - apply Sorted_inv in Hown as [_ H]. apply HdRel_inv in H.
    vm_compute in H. by apply H.
Qed.

Lemma ordered_peer_ids_order_witness :
  GradAveragerTest.ordered_peer_ids flipping_key 1 [3; 4]
    = GradAveragerTest.ordered_peer_ids flipping_key 3 [4; 1]
  ∧ GradAveragerTest.ordered_peer_ids flipping_key 1 [3; 4] = [3; 1; 4].
Proof.
  split; [|reflexivity].
  refine (proj1 (ordered_peer_ids_order flipping_key 1 [3; 4] 3 [4; 1] _ _)).
  - exact (Permutation_cons_append [3; 4] 1).
  - intros p q Hp Hq.
    rewrite !elem_of_cons, elem_of_nil in Hp, Hq.
    destruct Hp as [->|[->|[->|[]]]], Hq as [->|[->|[->|[]]]];
      vm_compute; congruence.
Defined.

(** *** Publishing *)

(** C2 does not hold on the code.  A publish of epoch 5 whose calls all
    go through uploads and creates the tag 5 without having read the tags
    of the store. *)
Lemma save_and_upload_state_counterexample :
  save_and_upload_state 3 10 5 (λ _, AttemptOk)
    = (Returned true,
       [SavePretrained true; SaveOptimizer 5 true; UploadFolder 5 true;
        CreateTag 5 true])
  ∧ ListRepoRefs ∉ [SavePretrained true; SaveOptimizer 5 true; UploadFolder 5 true;
                    CreateTag 5 true].
Proof.
  split; [reflexivity|].
  rewrite !elem_of_cons, elem_of_nil. intuition discriminate.
Qed.

Lemma save_and_upload_state_reads_no_tags_witness :
  save_and_upload_state 3 10 6 tag_fails_twice
    = (Returned true, attempts_with_delays 10 (passes 6 tag_fails_twice 0 3))
  ∧ ListRepoRefs ∉ attempts_with_delays 10 (passes 6 tag_fails_twice 0 3).
Proof.
  split; [reflexivity|].
  exact (proj1 (proj2 (save_and_upload_state_reads_no_tags 3 10 6 tag_fails_twice
                         (Returned true) _ eq_refl))).
Defined.

(** *** Uploading *)

Lemma save_and_upload_state_retries_witness :
  save_and_upload_state 3 10 6 tag_fails_twice
    = (Returned true,
       attempts_with_delays 10 (passes 6 tag_fails_twice 0 3))
  ∧ ∃ k : nat,
      (k ≤ Z.to_nat 3)%nat
      ∧ attempts_with_delays 10 (passes 6 tag_fails_twice 0 3)
        = attempts_with_delays 10 (passes 6 tag_fails_twice 0 k)
      ∧ calls is_SavePretrained
          (attempts_with_delays 10 (passes 6 tag_fails_twice 0 3)) = k
      ∧ calls is_Sleep
          (attempts_with_delays 10 (passes 6 tag_fails_twice 0 3)) = pred k
      ∧ (∀ i : nat, (S i < k)%nat → tag_fails_twice (Z.of_nat i) ≠ AttemptOk)
      ∧ (0 < k)%nat ∧ tag_fails_twice (Z.of_nat (pred k)) = AttemptOk.
Proof.
  split; [reflexivity|].
  exact (save_and_upload_state_retries 3 10 6 tag_fails_twice
           (Returned true) _ eq_refl).
Defined.

(** *** Waiting *)



(** *** Loading *)

(** C5 does not hold on the code.  Called with the epoch 4 while the
    global epoch is 5, the load succeeds after asking for the epoch 4, and
    sets the local epoch to 5. *)
Lemma load_state_from_peer_counterexample :
  load_state_from_peer env_ok behind (Some 4)
    = (true,
       {| local_epoch := 5; local_samples_accumulated := 0; global_epoch := Some 5 |},
       [LoadModel 4 true; CleanupCache])
  ∧ global_epoch behind = Some 5
  ∧ 4 ≠ 5.
Proof. repeat split. lia. Qed.

Lemma load_state_from_peer_success_witness :
  load_state_from_peer env_ok behind None
    = (true,
       {| local_epoch := 5; local_samples_accumulated := 0; global_epoch := Some 5 |},
       [GetGlobalEpoch; LoadModel 5 true; CleanupCache])
  ∧ ∃ g,
      Some 5 = Some g ∧ 5 = g ∧ 0 = 0
      ∧ LoadModel (default g None) true
          ∈ [GetGlobalEpoch; LoadModel 5 true; CleanupCache]
      ∧ (∀ e ok, LoadModel e ok ∈ [GetGlobalEpoch; LoadModel 5 true; CleanupCache]
                 → e = default g None)
      ∧ (@None Z = None → get_global_epoch env_ok = Some (Some g))
      ∧ (@None Z = None ∨ None = global_epoch behind → default g None = g).
Proof.
  split; [reflexivity|].
  exact (load_state_from_peer_success env_ok behind None _ _ eq_refl).
Defined.

(** The model is asked for the default revision at epoch 0, and for the
    tag of the epoch otherwise; the optimizer always for the tag. *)
Lemma model_revision_spec epoch :
  (epoch = 0 → model_revision epoch = None)
  ∧ (epoch ≠ 0 → model_revision epoch = Some epoch)
  ∧ optimizer_revision epoch = epoch.
Proof.
  unfold model_revision. repeat split.
  - by intros ->.
  - intros Hne. apply Z.eqb_neq in Hne. by rewrite Hne.
Qed.

(** *** The routine check *)

(** C6 on the distributed_training validator, with a local epoch 6 ahead
    of the global epoch 5: the check of lines 44-49 calls
    [load_state_from_peer], which loads the epoch 5 and sets the local
    epoch back to 5.  The check of the template validator does not load
    in that state. *)
Theorem dt_routine_check_local_ahead :
  DTForward.recovery_triggered ahead = true
  ∧ DTForward.routine_check env_ok ahead
    = ({| local_epoch := 5; local_samples_accumulated := 0; global_epoch := Some 5 |},
       [LoadModel 5 true; CleanupCache])
  ∧ TemplateForward.recovery_triggered ahead = false
  ∧ TemplateForward.routine_check env_ok ahead = (ahead, []).
Proof. repeat split. Qed.

(** *** The schedule *)

(** C7 does not hold on the code.  Under a policy with an interval of 10
    ticks and a threshold of 1000 samples, the template validator runs an
    all-reduce at 30 samples, where the policy has no round due, and runs
    none at 0 samples after 11 ticks, where the policy has one due. *)
Lemma round_due_counterexample :
  TemplateForward.all_reduce_due (with_samples 30) = true
  ∧ Spec.spec_is_round_due policy 0 30 = false
  ∧ TemplateForward.all_reduce_due (with_samples 0) = false
  ∧ Spec.spec_is_round_due policy 11 0 = true.
Proof. repeat split. Qed.

(** *** Polling *)

(** C8 does not hold on the code.  With a pool of two miners and a
    minimal group size of 5 the loop of the master never ends: no amount
    of fuel gives a result, neither a group nor an error. *)
Lemma get_active_miners_counterexample :
  ¬ ∃ fuel result,
      DTForward.get_active_miners min_group_5 pool_of_two fuel 0 [] = Some result.
Proof.
  intros (fuel & result & Hrun).
  rewrite get_active_miners_starved in Hrun; [done| |];
    unfold DTForward.too_few; cbn; intros; lia.
Qed.

Lemma get_active_miners_polls_until_enough_witness :
  DTForward.get_active_miners min_group_3 growing_pool 5 0 [] = Some ([1; 2; 3], 2%nat)
  ∧ 3 ≤ Z.of_nat (length [1; 2; 3]) + 1.
Proof.
  apply (get_active_miners_polls_until_enough min_group_3 growing_pool 1 5).
  - cbn. lia.
  - intros [|i] Hi; [cbn; lia|lia].
  - cbn. lia.
  - lia.
Defined.

(** *** Scores *)

(** C9 does not hold on the code.  For a response that reports a gradient
    sum of 3.0 where the validator computes 0.0, [score_gradients] returns
    -2.0, which is not at least 0. *)
Lemma score_gradients_counterexample :
  Reward.score_gradients one_batch (Some 0) (Some 3%float) = Some (-2)%float
  ∧ PrimFloat.leb 0 (-2) = false
  ∧ PrimFloat.ltb (-2) 0 = true.
Proof. repeat split. Qed.
End Runs.

(** * Further properties *)

(** ** The loading manager over a run of calls *)

Section ManagerRuns.
Import ModelLoadingManager CallRuns.

Lemma set_loading_states_snoc m calls flag epoch :
  set_loading_states m (calls ++ [(flag, epoch)])
  = set_loading_state (set_loading_states m calls) flag epoch.
Proof. unfold set_loading_states. by rewrite foldl_app. Qed.

(** X1.  After any run of calls of [set_loading_state], [is_loading] is the
    flag of the last call and [last_loaded_epoch] is the epoch of the last
    call made with a false flag and an epoch; both are the initial values
    when there is no such call. *)
Theorem set_loading_states_last m calls :
  is_loading (set_loading_states m calls)
    = from_option fst (is_loading m) (last calls)
  ∧ last_loaded_epoch (set_loading_states m calls)
    = from_option Some (last_loaded_epoch m) (last (omap recorded_epoch calls)).
Proof.
  induction calls as [|[flag epoch] calls [IH1 IH2]] using rev_ind; [done|].
  rewrite set_loading_states_snoc, last_snoc, omap_app. cbn [from_option fst].
  split; [done|].
  unfold last_loaded_epoch in *. cbn [set_loading_state _last_loaded_epoch].
  unfold recorded_epoch. cbn [omap list_omap fst snd].
  destruct flag; cbn [negb andb].
  - by rewrite app_nil_r.
  - destruct epoch as [e|]; cbn.
    + by rewrite last_snoc.
    + by rewrite app_nil_r.
Qed.
End ManagerRuns.

(** ** More on load_state_from_peer *)

Section LoadOutcome.
Import StateLoader CallRuns.




(** X3.  A successful load is idempotent: repeated with the same argument
    and the same answers of the collaborators it returns [True] again,
    makes the same calls and leaves the progress it had left. *)
Theorem load_state_from_peer_idempotent env s arg s' tr :
  load_state_from_peer env s arg = (true, s', tr) →
  load_state_from_peer env s' arg = (true, s', tr).
Proof.
  unfold load_state_from_peer.
  destruct arg as [e|]; [|destruct (get_global_epoch env) as [g|]];
    cbn -[load_loop MAX_ATTEMPTS].
  - destruct (global_epoch s) as [g|]; [|done].
    destruct (load_loop env _ _ _) as [r tr2] eqn:Hloop.
    destruct r; intros [= <- <-]; done.
  - destruct g as [g|]; cbn -[load_loop MAX_ATTEMPTS]; [|done].
    destruct (load_loop env _ _ _) as [r tr2] eqn:Hloop.
    destruct r; intros [= <- <-]; done.
  - done.
Qed.

(** X4.  A successful load settles both routine checks: on the progress it
    leaves, neither the check of the template validator nor the check of
    the distributed_training validator asks for another load. *)
Theorem load_state_from_peer_settles env s arg s' tr :
  load_state_from_peer env s arg = (true, s', tr) →
  TemplateForward.recovery_triggered s' = false
  ∧ DTForward.recovery_triggered s' = false.
Proof.
  unfold load_state_from_peer.
  assert (∀ g : Z,
    TemplateForward.recovery_triggered
      {| local_epoch := g; local_samples_accumulated := 0; global_epoch := Some g |}
      = false
    ∧ DTForward.recovery_triggered
        {| local_epoch := g; local_samples_accumulated := 0; global_epoch := Some g |}
      = false) as Hsettled.
  { intros g. unfold TemplateForward.recovery_triggered,
      DTForward.recovery_triggered. cbn. split; [apply Z.ltb_irrefl|].
    by rewrite bool_decide_eq_true_2. }
  destruct arg as [e|]; [|destruct (get_global_epoch env) as [g|]];
    cbn -[load_loop].
  - destruct (global_epoch s) as [g|]; [|done].
    destruct (load_loop env _ _ _) as [r tr2]. destruct r; intros [= <- <-]; done.
  - destruct g as [g|]; cbn -[load_loop]; [|done].
    destruct (load_loop env _ _ _) as [r tr2]. destruct r; intros [= <- <-]; done.
  - done.
Qed.
End LoadOutcome.

(** ** cleanup_old_cache *)

Section CacheFacts.
Import StateLoader CacheCleanup Orders.

Lemma insert_newest_perm r l : insert_newest r l ≡ₚ r :: l.
Proof.
  induction l as [|q l IH]; cbn; [done|].
  destruct (Qle_bool _ _); [done|]. rewrite IH. apply Permutation_swap.
Qed.

Lemma newest_first_perm l : newest_first l ≡ₚ l.
Proof.
  induction l as [|r l IH]; cbn; [done|]. by rewrite insert_newest_perm, IH.
Qed.

Lemma insert_newest_sorted r l :
  Sorted at_least_as_new l → Sorted at_least_as_new (insert_newest r l).
Proof.
  induction 1 as [|q l Hsorted IH Hhd]; cbn.
  { by repeat constructor. }
  destruct (Qle_bool (last_modified q) (last_modified r)) eqn:Hle.
  - apply Qle_bool_iff in Hle. by repeat constructor.
  - assert (¬ (last_modified q <= last_modified r)%Q) as Hgt.
    { intros H. apply Qle_bool_iff in H. congruence. }
    apply Qnot_le_lt in Hgt.
    constructor; [done|].
    destruct Hhd as [|p l' Hqp]; cbn.
    + constructor. unfold at_least_as_new. by apply Qlt_le_weak.
    + destruct (Qle_bool (last_modified p) (last_modified r)); constructor;
        [unfold at_least_as_new; by apply Qlt_le_weak|done].
Qed.

Lemma newest_first_sorted l : Sorted at_least_as_new (newest_first l).
Proof.
  induction l as [|r l IH]; cbn; [constructor|]. by apply insert_newest_sorted.
Qed.

(** The loop hands over the hashes of a prefix of the revisions that are
    not the current one, in their order, and of all of them when no call
    raises. *)
Lemma delete_loop_spec current delete_ok revs : ∀ o handed,
  delete_loop current delete_ok revs = (o, handed) →
  handed `prefix_of`
    (commit_hash <$> List.filter (λ r, negb (is_current current r)) revs)
  ∧ (o = Returned tt →
     handed = commit_hash <$> List.filter (λ r, negb (is_current current r)) revs)
  ∧ ((∀ h, delete_ok h = true) → o = Returned tt).
Proof.
  induction revs as [|r revs IH]; intros o handed; cbn.
  { intros [= <- <-]. done. }
  destruct (is_current current r) eqn:Hcur; cbn; [apply IH|].
  destruct (delete_ok (commit_hash r)) eqn:Hok.
  - destruct (delete_loop current delete_ok revs) as [o' handed'] eqn:Hrec.
    destruct (IH _ _ eq_refl) as (Hpre & Hall & Hret).
    intros [= <- <-]. split; [by apply prefix_cons|].
    split; [intros Ho; by rewrite Hall|done].
  - intros [= <- <-]. split; [apply prefix_cons, prefix_nil|]. split; [done|].
    intros Hall. rewrite Hall in Hok. done.
Qed.

Lemma is_current_true current r :
  is_current current r = true ↔ current = Some (commit_hash r).
Proof.
  unfold is_current. destruct current as [c|]; [|done].
  rewrite bool_decide_eq_true. split; [by intros ->|by intros [= ->]].
Qed.

Lemma cleanup_repos_spec wanted current delete_ok repos : ∀ o handed,
  cleanup_repos wanted current delete_ok repos = (o, handed) →
  (Forall (λ x, repo_id x ≠ wanted) repos ∧ o = Returned tt ∧ handed = [])
  ∨ ∃ before repo after,
      repos = before ++ repo :: after
      ∧ Forall (λ x, repo_id x ≠ wanted) before
      ∧ repo_id repo = wanted
      ∧ delete_loop current delete_ok (newest_first (revisions repo)) = (o, handed).
Proof.
  induction repos as [|repo repos IH]; intros o handed; cbn.
  { intros [= <- <-]. by left. }
  case_bool_decide as Hid.
  - intros Hloop. right. exists [], repo, repos. done.
  - intros Hrec. destruct (IH _ _ Hrec) as [(Hall & -> & ->)|Hfound].
    + left. split; [by constructor|done].
    + destruct Hfound as (before & r & after & -> & Hbefore & Hr & Hloop).
      right. exists (repo :: before), r, after.
      split; [done|]. split; [by constructor|done].
Qed.

(** X5.  [cleanup_old_cache] never hands to [delete_revisions] the hash it
    protects: the commit hash of the loaded model when it is called
    without a repository id, the [current_revision] argument otherwise.
    Every hash it hands over is the commit hash of a revision of the
    first cached repository with the wanted id, and without such a
    repository it calls [delete_revisions] not at all. *)
Theorem cleanup_old_cache_skips_current
    model_name hash repo current delete_ok repos o handed :
  cleanup_old_cache model_name hash repo current delete_ok repos = (o, handed) →
  let protected := match repo with None => hash | Some _ => current end in
  let wanted := default model_name repo in
  (∀ h, protected = Some h → h ∉ handed)
  ∧ (∀ h, h ∈ handed →
       ∃ before cached after r,
         repos = before ++ cached :: after
         ∧ Forall (λ x, repo_id x ≠ wanted) before
         ∧ repo_id cached = wanted
         ∧ r ∈ revisions cached ∧ commit_hash r = h)
  ∧ (Forall (λ x, repo_id x ≠ wanted) repos → o = Returned tt ∧ handed = []).
Proof.
  intros Hrun protected wanted. unfold cleanup_old_cache in Hrun.
  assert (cleanup_repos wanted protected delete_ok repos = (o, handed)) as Hrepos.
  { subst protected wanted. by destruct repo. }
  clear Hrun.
  apply cleanup_repos_spec in Hrepos
    as [(Hall & -> & ->)|(before & cached & after & -> & Hbefore & Hid & Hloop)].
  { split; [intros h _; apply not_elem_of_nil|].
    split; [intros h Hh; by apply elem_of_nil in Hh|done]. }
  apply delete_loop_spec in Hloop as (Hpre & _ & _).
  assert (∀ h, h ∈ handed →
            ∃ r, r ∈ revisions cached ∧ commit_hash r = h
                 ∧ is_current protected r = false) as Hdel.
  { intros h Hh. apply (elem_of_prefix _ _ _ Hh) in Hpre as Hh'. clear Hh.
    rename Hh' into Hh.
    apply list_elem_of_fmap in Hh as (r & -> & Hr).
    apply list_elem_of_In, filter_In in Hr as [Hr Hcur].
    apply list_elem_of_In in Hr. rewrite newest_first_perm in Hr.
    exists r. split; [done|]. split; [done|]. by apply negb_true_iff. }
  split; [|split].
  - intros h Hp Hh. destruct (Hdel h Hh) as (r & _ & <- & Hcur).
    apply is_current_true in Hp. congruence.
  - intros h Hh. destruct (Hdel h Hh) as (r & Hr & Hh' & _).
    by exists before, cached, after, r.
  - intros Hall. apply Forall_app in Hall as [_ Hall].
    apply Forall_cons in Hall as [Hne _]. done.
Qed.

(** X6.  When no call of [delete_revisions] raises, [cleanup_old_cache]
    hands to it the commit hash of every revision of the first cached
    repository with the wanted id except those with the protected hash,
    each once per listing and the most recently modified first. *)
Theorem cleanup_old_cache_hands_others
    model_name hash repo current delete_ok before cached after :
  (∀ h, delete_ok h = true) →
  Forall (λ x, repo_id x ≠ default model_name repo) before →
  repo_id cached = default model_name repo →
  let protected := match repo with None => hash | Some _ => current end in
  ∃ ordered,
    cleanup_old_cache model_name hash repo current delete_ok
      (before ++ cached :: after)
    = (Returned tt,
       commit_hash <$> List.filter (λ r, negb (is_current protected r)) ordered)
    ∧ ordered ≡ₚ revisions cached
    ∧ Sorted at_least_as_new ordered.
Proof.
  intros Hok Hbefore Hid protected.
  exists (newest_first (revisions cached)).
  split; [|split; [apply newest_first_perm|apply newest_first_sorted]].
  unfold cleanup_old_cache.
  assert (∀ c, cleanup_repos (default model_name repo) c delete_ok
                 (before ++ cached :: after)
               = delete_loop c delete_ok (newest_first (revisions cached))) as Hrepos.
  { intros c. induction Hbefore as [|x before Hx _ IH]; cbn.
    - by rewrite bool_decide_eq_true_2.
    - by rewrite bool_decide_eq_false_2. }
  assert (cleanup_repos (default model_name repo) protected delete_ok
            (before ++ cached :: after)
          = (Returned tt,
             commit_hash <$> List.filter (λ r, negb (is_current protected r))
                               (newest_first (revisions cached)))) as Hrun.
  { rewrite Hrepos.
    destruct (delete_loop protected delete_ok (newest_first (revisions cached)))
      as [o handed] eqn:Hloop.
    apply delete_loop_spec in Hloop as (_ & Hall & Hret).
    specialize (Hret Hok). subst o. by rewrite Hall. }
  subst protected. by destruct repo.
Qed.
End CacheFacts.

(** ** More on save_and_upload_state *)

Section UploadTags.
Import StateLoader.

(** X7.  [save_and_upload_state] creates the tag at most once, and exactly
    when it returns [True]; every call of [create_tag] is for the epoch
    given and comes right after a call of [upload_folder] for that epoch
    that went through; a call that returns [True] ends with a pass in
    which the model and the optimizer state were saved, uploaded and
    tagged in that order. *)
Theorem save_and_upload_state_tag limit delay epoch env res tr :
  save_and_upload_state limit delay epoch env = (res, tr) →
  calls is_tag_created tr = match res with Returned true => 1%nat | _ => 0%nat end
  ∧ (∀ i tag ok, tr !! i = Some (CreateTag tag ok) →
       tag = epoch ∧ ∃ j, i = S j ∧ tr !! j = Some (UploadFolder epoch true))
  ∧ (res = Returned true →
     ∃ tr0, tr = tr0 ++ [SavePretrained true; SaveOptimizer epoch true;
                         UploadFolder epoch true; CreateTag epoch true]).
Proof.
  intros Hrun. apply upload_loop_tags in Hrun as (H1 & H2 & H3 & _). done.
Qed.
End UploadTags.

(** ** More on the scores *)

Section ScoreFacts.
Import Reward Orders.
#[local] Open Scope Q_scope.

Lemma score_blacklist_loop_eq resolve uids : ∀ i peer_ids scores,
  (i ≤ length scores)%nat →
  score_blacklist_loop resolve uids i peer_ids scores
  = if (i + length uids <=? length scores)%nat
    then Some (peer_ids ++ (resolve <$> uids),
               take i scores ++ (blacklist_score ∘ resolve <$> uids)
               ++ drop (i + length uids) scores)
    else None.
Proof.
  induction uids as [|u uids IH]; intros i ps sc Hi; cbn [score_blacklist_loop].
  { cbn [length fmap list_fmap]. rewrite Nat.add_0_r, app_nil_r.
    apply Nat.leb_le in Hi as Hi'. rewrite Hi'. cbn. by rewrite take_drop. }
  cbn [length].
  destruct (i <? length sc)%nat eqn:Hlt.
  2:{ apply Nat.ltb_ge in Hlt.
      destruct (i + S (length uids) <=? length sc)%nat eqn:Hle; [|done].
      apply Nat.leb_le in Hle. lia. }
  apply Nat.ltb_lt in Hlt.
  rewrite IH by (rewrite length_insert; lia).
  rewrite length_insert, Nat.add_succ_r. cbn [Nat.add].
  destruct (S (i + length uids) <=? length sc)%nat; [|done].
  f_equal. f_equal.
  - by rewrite <-app_assoc.
  - rewrite (take_S_r _ _ (blacklist_score (resolve u)))
      by (by apply list_lookup_insert_eq).
    rewrite take_insert_ge by lia. rewrite drop_insert_lt by lia.
    cbn. by rewrite <-app_assoc.
Qed.

Lemma score_blacklist_spec_eq resolve uids scores :
  score_blacklist resolve uids scores
  = if (length uids <=? length scores)%nat
    then Some (resolve <$> uids,
               (blacklist_score ∘ resolve <$> uids) ++ drop (length uids) scores)
    else None.
Proof.
  unfold score_blacklist. rewrite score_blacklist_loop_eq by lia.
  cbn [Nat.add]. by rewrite take_0.
Qed.

(** X8.  [score_blacklist] raises when it is given fewer scores than uids.
    Otherwise it returns the peer id of every uid, in order, and the
    scores with the first entries overwritten: 1 for a uid with a peer id
    and 0 for a uid without one, whatever the score was; the scores beyond
    the uids are left as they were. *)
Theorem score_blacklist_spec resolve uids scores :
  score_blacklist resolve uids scores
  = if (length uids <=? length scores)%nat
    then Some (resolve <$> uids,
               (blacklist_score ∘ resolve <$> uids) ++ drop (length uids) scores)
    else None.
Proof. apply score_blacklist_spec_eq. Qed.

Lemma score_bandwidth_loop_eq probes peers : ∀ i scores,
  (i ≤ length scores)%nat →
  score_bandwidth_loop probes peers i scores
  = if (i + length peers <=? length scores)%nat
    then Some (take i scores
               ++ imap (λ j peer, bandwidth_score peer (probes (i + j)%nat)) peers
               ++ drop (i + length peers) scores)
    else None.
Proof.
  induction peers as [|p peers IH]; intros i sc Hi; cbn [score_bandwidth_loop].
  { cbn [length imap]. rewrite Nat.add_0_r.
    apply Nat.leb_le in Hi as Hi'. rewrite Hi'. cbn. by rewrite take_drop. }
  cbn [length].
  destruct (i <? length sc)%nat eqn:Hlt.
  2:{ apply Nat.ltb_ge in Hlt.
      destruct (i + S (length peers) <=? length sc)%nat eqn:Hle; [|done].
      apply Nat.leb_le in Hle. lia. }
  apply Nat.ltb_lt in Hlt.
  rewrite IH by (rewrite length_insert; lia).
  rewrite length_insert, Nat.add_succ_r. cbn [Nat.add].
  destruct (S (i + length peers) <=? length sc)%nat; [|done].
  f_equal.
  rewrite (take_S_r _ _ (bandwidth_score p (probes i)))
    by (by apply list_lookup_insert_eq).
  rewrite take_insert_ge by lia. rewrite drop_insert_lt by lia.
  rewrite imap_cons, Nat.add_0_r, <-app_assoc. cbn. do 3 f_equal.
  apply imap_ext. intros j x _. cbn. by rewrite Nat.add_succ_r.
Qed.

Lemma get_rewards_all_reduce_eq env uids responses0 :
  no_first_response responses0 = true →
  get_rewards env uids responses0 true
  = Some (imap (λ i u, bandwidth_score (map_uid_to_peerid env u) (probes env i))
               (get_random_uids env)).
Proof.
  intros Hfirst. unfold get_rewards. rewrite Hfirst.
  rewrite score_blacklist_spec_eq, length_replicate, Nat.leb_refl.
  unfold score_bandwidth. rewrite score_bandwidth_loop_eq by lia.
  cbn [Nat.add]. rewrite length_fmap, length_app, length_fmap, length_drop.
  rewrite length_replicate, Nat.sub_diag, Nat.add_0_r, Nat.leb_refl.
  rewrite take_0, drop_ge
    by (rewrite length_app, length_fmap, length_drop, length_replicate; lia).
  rewrite app_nil_r. cbn [app]. by rewrite imap_fmap.
Qed.

(** X9.  In its all-reduce branch, entered when the first response is
    missing or failed, [get_rewards] scores a fresh sample of uids and not
    the uids it was given: the result has one score per sampled uid, the
    bandwidth score of its peer, and nothing of the blacklist score
    written before remains. *)
Theorem get_rewards_all_reduce env uids responses0 :
  no_first_response responses0 = true →
  get_rewards env uids responses0 true
  = Some (imap (λ i u, bandwidth_score (map_uid_to_peerid env u) (probes env i))
               (get_random_uids env)).
Proof. apply get_rewards_all_reduce_eq. Qed.

Lemma bandwidth_score_sign peer p :
  (∀ start_time end_time, p = ProbeOk start_time end_time → start_time <= end_time) →
  0 <= bandwidth_score peer p.
Proof.
  intros Hclock. unfold bandwidth_score.
  destruct peer; [|lra]. destruct p as [| |st en]; [lra|lra|].
  specialize (Hclock st en eq_refl).
  destruct (Qeq_bool (en - st) 0) eqn:Hz; [lra|].
  apply Qeq_bool_neq in Hz.
  apply Qlt_le_weak, Qlt_shift_div_l; lra.
Qed.

(** X10.  With a clock that does not run backwards, no score of the
    all-reduce branch of [get_rewards] is negative, and a sampled uid
    without a peer id, or whose probe raised or came back empty, has the
    score 0. *)
Theorem get_rewards_all_reduce_scores env uids responses0 scores :
  no_first_response responses0 = true →
  (∀ i start_time end_time,
     probes env i = ProbeOk start_time end_time → start_time <= end_time) →
  get_rewards env uids responses0 true = Some scores →
  Forall (λ x, 0 <= x) scores
  ∧ length scores = length (get_random_uids env)
  ∧ ∀ i u, get_random_uids env !! i = Some u →
      (map_uid_to_peerid env u = None ∨ probes env i = ProbeRaises
       ∨ probes env i = ProbeEmpty) →
      scores !! i = Some 0.
Proof.
  intros Hfirst Hclock. rewrite get_rewards_all_reduce_eq by done.
  intros [= <-]. split; [|split].
  - apply Forall_lookup. intros i x. rewrite list_lookup_imap.
    destruct (get_random_uids env !! i) as [u|]; [|done]. cbn. intros [= <-].
    apply bandwidth_score_sign. intros st en. apply Hclock.
  - apply length_imap.
  - intros i u Hu Hzero. rewrite list_lookup_imap, Hu. cbn. f_equal.
    unfold bandwidth_score.
    destruct Hzero as [-> | [-> | ->]]; [done| |];
      by destruct (map_uid_to_peerid env u).
Qed.
End ScoreFacts.

Section RewardErrors.
Import Reward Orders.
#[local] Open Scope Q_scope.

Lemma test_uids_index_elem uids responses0 population i :
  test_uids_index uids responses0 = Some population →
  i ∈ population →
  ∃ r, responses0 !! i = Some r ∧ status_code r = 200%Z.
Proof.
  unfold test_uids_index. destruct (_ <=? _)%nat; [|done]. intros [= <-].
  rewrite list_elem_of_In, filter_In. intros [_ Hi].
  destruct (responses0 !! i) as [r|]; [|done].
  exists r. split; [done|]. by apply Z.eqb_eq.
Qed.

(** The scores the scoring branch starts from. *)
Lemma response_scores_lookup (uids : list uid) (responses0 : list Response) i u r :
  uids !! i = Some u → responses0 !! i = Some r →
  map (λ '(_, r), if responded r then 1 else 0) (zip uids responses0) !! i
  = Some (if responded r then 1 else 0).
Proof.
  intros Hu Hr. rewrite list_lookup_fmap.
  rewrite lookup_zip_with, Hu, Hr. done.
Qed.

(** X11.  In its scoring branch [get_rewards] raises exactly when it is
    given fewer responses than uids, or [score_gradients] raises for an
    index of the sample. *)
Theorem get_rewards_raises env uids responses0 all_reduce :
  no_first_response responses0 = false →
  get_rewards env uids responses0 all_reduce = None
  ↔ (length responses0 < length uids)%nat
    ∨ ∃ population i r,
        test_uids_index uids responses0 = Some population
        ∧ i ∈ random_sample env population
        ∧ (i < length uids)%nat
        ∧ responses0 !! i = Some r
        ∧ score_gradients (batches env i) (gradient_test_index r) (gradients r)
          = None.
Proof.
  intros Hfirst. unfold get_rewards. rewrite Hfirst.
  set (timeout_scores := map _ (zip uids responses0)).
  assert (length timeout_scores = Nat.min (length uids) (length responses0)) as Hlen.
  { subst timeout_scores. rewrite length_map. apply length_zip_with. }
  unfold test_uids_index.
  destruct (length uids <=? length responses0)%nat eqn:Hle.
  2:{ apply Nat.leb_gt in Hle. split; [by left|]. intros _.
      by destruct (if (step env mod 10 =? 0)%Z then _ else _). }
  apply Nat.leb_le in Hle.
  assert (∃ base_scores,
    (if (step env mod 10 =? 0)%Z
     then snd <$> score_blacklist (map_uid_to_peerid env) uids timeout_scores
     else Some timeout_scores) = Some base_scores
    ∧ length base_scores = length uids) as (base & -> & Hblen).
  { destruct (step env mod 10 =? 0)%Z.
    - rewrite score_blacklist_spec_eq.
      assert ((length uids <=? length timeout_scores)%nat = true) as ->
        by (apply Nat.leb_le; lia).
      eexists. split; [done|]. cbn.
      rewrite length_app, length_fmap, length_drop. lia.
    - exists timeout_scores. split; [done|lia]. }
  set (population := List.filter _ (seq 0 (length uids))).
  set (sample := random_sample env population).
  split.
  - intros Hnone. right.
    destruct (decide (Forall (λ i, is_Some (gradient_score env sample responses0 base i))
                             (seq 0 (length uids)))) as [Hall|Hex].
    { apply mapM_is_Some in Hall as [scores Hscores]. congruence. }
    apply not_Forall_Exists in Hex; [|intros i; apply _].
    apply Exists_exists in Hex as (i & Hi & Hraise).
    apply elem_of_seq in Hi as [_ Hi]. cbn in Hi, Hraise.
    unfold gradient_score in Hraise.
    destruct (lookup_lt_is_Some_2 base i) as [b Hb]; [lia|].
    destruct (lookup_lt_is_Some_2 responses0 i) as [r Hr]; [lia|].
    rewrite Hb, Hr in Hraise.
    case_bool_decide as Hin; [|by destruct Hraise].
    exists population, i, r. split_and!; try done.
    destruct (score_gradients _ _ _); [by destruct Hraise|done].
  - intros [Hlt|(population' & i & r & [= <-] & Hin & Hi & Hr & Hraise)]; [lia|].
    destruct (mapM _ _) as [scores|] eqn:Hscores; [|done]. exfalso.
    apply mapM_Some in Hscores.
    assert (seq 0 (length uids) !! i = Some i) as Hseq
      by (apply lookup_seq; split; [done|lia]).
    destruct (Forall2_lookup_l _ _ _ _ _ Hscores Hseq) as (x & _ & Hx).
    unfold gradient_score in Hx.
    destruct (lookup_lt_is_Some_2 base i) as [b Hb]; [lia|].
    rewrite Hb, Hr in Hx. fold population sample in Hin.
    rewrite bool_decide_eq_true_2 in Hx by done.
    by rewrite Hraise in Hx.
Qed.

(** X12.  A miner whose response did not come back with the status 200 is
    never scored on its gradients.  On a step that is not a multiple of
    ten its score is 0; on a multiple of ten the blacklist pass has
    overwritten the response scores and its score is 1 when its uid has a
    peer id and 0 when it has none. *)
Theorem get_rewards_unanswered env uids responses0 all_reduce scores i u r :
  (∀ population, random_sample env population ⊆ population) →
  no_first_response responses0 = false →
  get_rewards env uids responses0 all_reduce = Some scores →
  uids !! i = Some u →
  responses0 !! i = Some r →
  status_code r ≠ 200%Z →
  scores !! i
  = Some (if (step env mod 10 =? 0)%Z
          then blacklist_score (map_uid_to_peerid env u)
          else 0).
Proof.
  intros Hsample Hfirst Hrun Hu Hr Hstatus.
  unfold get_rewards in Hrun. rewrite Hfirst in Hrun.
  set (timeout_scores := map _ (zip uids responses0)) in Hrun.
  assert (timeout_scores !! i = Some 0) as Htimeout.
  { subst timeout_scores. rewrite (response_scores_lookup _ _ _ _ _ Hu Hr).
    unfold responded. apply Z.eqb_neq in Hstatus. by rewrite Hstatus. }
  destruct (if (step env mod 10 =? 0)%Z then _ else _) as [base|] eqn:Hbase;
    [|done].
  destruct (test_uids_index uids responses0) as [population|] eqn:Hpop; [|done].
  assert (base !! i
          = Some (if (step env mod 10 =? 0)%Z
                  then blacklist_score (map_uid_to_peerid env u) else 0)) as Hb.
  { destruct (step env mod 10 =? 0)%Z.
    - rewrite score_blacklist_spec_eq in Hbase.
      destruct (length uids <=? length timeout_scores)%nat; [|done].
      cbn in Hbase. injection Hbase as <-.
      rewrite lookup_app_l
        by (rewrite length_fmap; by eapply lookup_lt_Some).
      by rewrite list_lookup_fmap, Hu.
    - by injection Hbase as <-. }
  apply mapM_Some in Hrun.
  assert (seq 0 (length uids) !! i = Some i) as Hseq.
  { apply lookup_seq. split; [done|]. by eapply lookup_lt_Some. }
  destruct (Forall2_lookup_l _ _ _ _ _ Hrun Hseq) as (x & Hx & Hscore).
  rewrite Hx. unfold gradient_score in Hscore.
  rewrite Hb, Hr in Hscore.
  rewrite bool_decide_eq_false_2 in Hscore; [done|].
  intros Hin. apply Hsample in Hin.
  destruct (test_uids_index_elem _ _ _ _ Hpop Hin) as (r' & Hr' & H200).
  congruence.
Qed.
End RewardErrors.

(** ** The group of the template validator *)

Section GroupErrors.
Import StateLoader TemplateChecks.
#[local] Open Scope Q_scope.

(** X13.  [perform_all_reduce] raises on every call.  The body of its
    loop is always entered, and once [map_uid_to_peerid] has answered,
    line 99 calls [score_blacklist] with two arguments where the function
    takes three: whatever the uids, the answer of [map_uid_to_peerid] and
    the code after that call, no group is built. *)
Theorem perform_all_reduce_raises map_uid_to_peerid continue miner_uids :
  perform_all_reduce map_uid_to_peerid continue miner_uids = Raised.
Proof.
  unfold perform_all_reduce. by destruct (map_uid_to_peerid miner_uids).
Qed.

(** X15.  [validate_peers] accepts a candidate map exactly when the map is
    not empty and every candidate that is paired with a score and is not
    the validator itself has a peer id and a score that is not zero; the
    candidates beyond the scores given are not looked at.  Without scores
    it accepts nothing. *)
Theorem validate_peers_accepts self_uid gp blacklist_scores :
  validate_peers self_uid gp blacklist_scores = true
  ↔ gp ≠ []
    ∧ ∃ scores,
        blacklist_scores = Some scores
        ∧ ∀ i u p score,
            gp !! i = Some (u, p) → scores !! i = Some score → u ≠ self_uid →
            p ≠ None ∧ Qeq_bool score 0 = false.
Proof.
  unfold validate_peers.
  destruct gp as [|entry gp].
  { split; [done|]. by intros [? _]. }
  destruct blacklist_scores as [scores|].
  2:{ split; [done|]. by intros (_ & scores & ? & _). }
  set (l := entry :: gp). rewrite forallb_forall. split.
  - intros Hall. split; [done|]. exists scores. split; [done|].
    intros i u p score Hi Hs Hne.
    assert (In (u, p, score) (zip l scores)) as Hin.
    { apply list_elem_of_In, list_elem_of_lookup. exists i.
      apply lookup_zip_with_Some. by exists (u, p), score. }
    apply Hall in Hin. cbn in Hin.
    apply Z.eqb_neq in Hne. rewrite Hne in Hin. cbn in Hin.
    apply andb_true_iff in Hin as [Hp Hscore].
    apply bool_decide_eq_true in Hp. apply negb_true_iff in Hscore. done.
  - intros (_ & scores' & [= <-] & Hall) [[u p] score] Hin.
    apply list_elem_of_In, list_elem_of_lookup in Hin as [i Hi].
    apply lookup_zip_with_Some in Hi as (x & y & [= <- <-] & Hx & Hy).
    destruct (Z.eqb_spec u self_uid) as [|Hne]; [done|]. cbn.
    destruct (Hall i u p score Hx Hy Hne) as [Hp ->].
    by rewrite bool_decide_eq_true_2.
Qed.
End GroupErrors.

(** ** More on the round of the template validator *)

Section RoundCalls.
Import StateLoader TemplateForward CallRuns.

(** X16.  In every run of the code that follows the all-reduce query, the
    averaging step is cancelled and the gradients of the optimizer are
    zeroed exactly once when the round is marked as failed and never
    otherwise; [reset_accumulated_grads_] is called once when the round is
    not marked as failed and never when it is; a failed round runs to its
    end and writes nothing to the hub; the optimizer steps at most once. *)
Theorem process_all_reduce_calls
    limit delay timeout env fuel s elapsed st failed s' tr :
  process_all_reduce limit delay timeout env fuel s elapsed
    = (st, failed, s', tr) →
  calls is_Cancel tr = (if failed then 1 else 0)%nat
  ∧ calls is_ZeroGrad tr = (if failed then 1 else 0)%nat
  ∧ calls is_ResetAccumulatedGrads tr = (if failed then 0 else 1)%nat
  ∧ (failed = true → st = Completed ∧ calls is_hub_write tr = 0%nat)
  ∧ (calls is_OptStep tr ≤ 1)%nat.
Proof.
  unfold process_all_reduce.
  destruct (wait_for_averaging _ _ _ _) as [now tr_wait] eqn:Hwait.
  apply wait_for_averaging_stops in Hwait as (k & _ & -> & _).
  assert (∀ le a b loaded s1 tr1 p,
            load_state_from_peer le a b = (loaded, s1, tr1) →
            (∀ e, is_load_call e = true → p e = false) →
            calls p tr1 = 0%nat) as Hload.
  { intros le a b loaded s1 tr1 p H Hp. apply calls_load; [done|].
    by eapply load_state_from_peer_calls. }
  unfold failure_epilogue.
  destruct (done _ _).
  - destruct (weights env).
    + destruct (load_state_from_peer _ _ _) as [[loaded s1] tr1] eqn:H1.
      intros [= <- <- <- <-].
      rewrite !calls_app, !calls_replicate_Sleep by done. cbn [calls is_Cancel is_ZeroGrad
        is_ResetAccumulatedGrads is_hub_write is_OptStep].
      rewrite !calls_app, !(Hload _ _ _ _ _ _ _ H1) by (by intros []).
      cbn. repeat split; lia.
    + destruct (load_state_from_peer _ _ _) as [[loaded s1] tr1] eqn:H1.
      destruct loaded.
      * intros [= <- <- <- <-].
        rewrite !calls_app, !calls_replicate_Sleep by done. cbn [calls is_Cancel is_ZeroGrad
          is_ResetAccumulatedGrads is_hub_write is_OptStep].
        rewrite !calls_app, !(Hload _ _ _ _ _ _ _ H1) by (by intros []).
        cbn. repeat split; lia.
      * destruct (load_state_from_peer (second_load env) _ _)
          as [[loaded2 s2] tr2] eqn:H2.
        intros [= <- <- <- <-].
        rewrite !calls_app, !calls_replicate_Sleep by done. cbn [calls is_Cancel is_ZeroGrad
          is_ResetAccumulatedGrads is_hub_write is_OptStep].
        rewrite !calls_app, !(Hload _ _ _ _ _ _ _ H1),
          !(Hload _ _ _ _ _ _ _ H2) by (by intros []).
        cbn. repeat split; lia.
    + destruct (publish_new_state _ _ _ _ _ _) as [[st1 s1] tr1] eqn:Hpub.
      apply publish_new_state_calls in Hpub as (tr' & -> & Hpub).
      intros [= <- <- <- <-].
      rewrite !calls_app, !calls_replicate_Sleep by done. cbn [calls is_Cancel is_ZeroGrad
        is_ResetAccumulatedGrads is_hub_write is_OptStep].
      rewrite (calls_publish is_Cancel tr'), (calls_publish is_ZeroGrad tr'),
        (calls_publish is_ResetAccumulatedGrads tr'),
        (calls_publish is_OptStep tr') by (done || by intros []).
      cbn. repeat split; (done || lia).
  - destruct (load_state_from_peer _ _ _) as [[loaded s1] tr1] eqn:H1.
    intros [= <- <- <- <-].
    rewrite !calls_app, !calls_replicate_Sleep by done.
    rewrite !(Hload _ _ _ _ _ _ _ H1) by (by intros []).
    cbn. repeat split; lia.
Qed.

Lemma load_state_from_peer_all_fail env s arg :
  (∀ n, load_model_ok env n = false) →
  ∃ s' tr,
    load_state_from_peer env s arg = (false, s', tr)
    ∧ local_epoch s' = local_epoch s
    ∧ local_samples_accumulated s' = local_samples_accumulated s
    ∧ ∀ ev, ev ∈ tr → is_load_call ev = true.
Proof.
  intros Hfail.
  destruct (load_state_from_peer env s arg) as [[b s'] tr] eqn:Hrun.
  exists s', tr.
  assert (b = false) as ->.
  2:{ split; [done|].
      destruct (load_state_from_peer_failure _ _ _ _ _ Hrun) as [? ?].
      repeat split; try done. by eapply load_state_from_peer_calls. }
  revert Hrun. unfold load_state_from_peer.
  destruct arg as [e|]; [|destruct (get_global_epoch env) as [g|]];
    cbn; rewrite ?Hfail.
  - destruct (global_epoch s); cbn; rewrite ?Hfail; by intros [= <- <- <-].
  - destruct g; cbn; rewrite ?Hfail; by intros [= <- <- <-].
  - by intros [= <- <- <-].
Qed.

(** X18.  The retry loop of the template validator does not count a pass
    that ends with [HfHubHTTPError]: while the hub answers every push with
    that error and the model cannot be loaded, the loop goes on, pushes
    once per pass without ever sleeping, and the retry limit is never
    reached. *)
Theorem push_loop_http_errors limit delay tag_name hub fuel n attempt s :
  attempt < limit →
  (∀ k, push_to_hub_r (hub k) = CallHTTPError) →
  (∀ k m, load_model_ok (adopt_env (hub k)) m = false) →
  ∃ s' tr,
    push_loop limit delay tag_name hub fuel n attempt s = (StillRunning, s', tr)
    ∧ calls is_PushToHub tr = fuel
    ∧ calls is_Sleep tr = 0%nat
    ∧ local_epoch s' = local_epoch s.
Proof.
  intros Hlt Hpush Hload. apply Z.ltb_lt in Hlt.
  revert n s. induction fuel as [|fuel' IH]; intros n s; cbn [push_loop].
  { by exists s, []. }
  rewrite Hlt. unfold try_push. rewrite Hpush.
  destruct (load_state_from_peer_all_fail (adopt_env (hub n)) s (Some tag_name)
              (Hload n)) as (s1 & tr1 & -> & Hepoch & _ & Hcalls).
  destruct (IH (S n) s1) as (s2 & tr2 & -> & Hp & Hs & He).
  exists s2, ([PushToHub false] ++ tr1 ++ tr2).
  split; [done|].
  rewrite !calls_app, !(calls_load _ tr1) by (done || by intros []).
  cbn. split; [by rewrite Hp|]. split; [done|congruence].
Qed.
End RoundCalls.

Section PushLoop.
Import StateLoader TemplateForward CallRuns.

Lemma push_loop_no_http limit delay tag_name hub fuel : ∀ n attempt s st s' tr,
  (∀ k, push_to_hub_r (hub k) ≠ CallHTTPError
        ∧ create_tag_r (hub k) ≠ CallHTTPError
        ∧ list_repo_refs_r (hub k) ≠ CallHTTPError) →
  (Z.to_nat (limit - attempt) < fuel)%nat →
  push_loop limit delay tag_name hub fuel n attempt s = (st, s', tr) →
  st ≠ StillRunning
  ∧ s' = s
  ∧ (calls is_PushToHub tr ≤ Z.to_nat (limit - attempt))%nat
  ∧ (attempt < limit → (1 ≤ calls is_PushToHub tr)%nat)
  ∧ calls is_Sleep tr = pred (calls is_PushToHub tr)
  ∧ calls is_load_call tr = 0%nat
  ∧ (st = Escaped → calls is_PushToHub tr = Z.to_nat (limit - attempt))
  ∧ (st = Completed → attempt < limit → CreateTag (local_epoch s) true ∈ tr).
Proof.
  intros n attempt s st s' tr Hhub. revert n attempt s st s' tr.
  induction fuel as [|fuel' IH]; intros n attempt s st s' tr Hfuel; [lia|].
  cbn [push_loop].
  destruct (Z.ltb_spec attempt limit) as [Hlt|Hge].
  2:{ intros [= <- <- <-]. cbn. repeat split; (done || lia). }
  destruct (Hhub n) as (Hp & Hc & Hl).
  assert (∀ tr0,
    calls is_PushToHub tr0 = 1%nat → calls is_Sleep tr0 = 0%nat →
    calls is_load_call tr0 = 0%nat →
    (if attempt + 1 <? limit
     then let '(st0, s2, tr2) :=
            push_loop limit delay tag_name hub fuel' (S n) (attempt + 1) s in
          (st0, s2, tr0 ++ Sleep delay :: tr2)
     else (Escaped, s, tr0)) = (st, s', tr) →
    st ≠ StillRunning ∧ s' = s
    ∧ (calls is_PushToHub tr ≤ Z.to_nat (limit - attempt))%nat
    ∧ (attempt < limit → (1 ≤ calls is_PushToHub tr)%nat)
    ∧ calls is_Sleep tr = pred (calls is_PushToHub tr)
    ∧ calls is_load_call tr = 0%nat
    ∧ (st = Escaped → calls is_PushToHub tr = Z.to_nat (limit - attempt))
    ∧ (st = Completed → attempt < limit → CreateTag (local_epoch s) true ∈ tr))
    as Hretry.
  { intros tr0 Hp0 Hs0 Hl0.
    destruct (Z.ltb_spec (attempt + 1) limit) as [Hlt'|Hge'].
    - destruct (push_loop _ _ _ _ fuel' (S n) (attempt + 1) s)
        as [[st2 s2] tr2] eqn:Hrec.
      apply IH in Hrec as (H1 & H2 & H3 & H4 & H5 & H6 & H7 & H8); [|lia].
      intros [= <- <- <-]. specialize (H4 Hlt').
      rewrite !calls_app. cbn [calls is_PushToHub is_Sleep is_load_call].
      rewrite Hp0, Hs0, Hl0.
      repeat split; try (done || lia).
      + intros He. specialize (H7 He). lia.
      + intros He _. rewrite elem_of_app, elem_of_cons. auto.
    - intros [= <- <- <-]. rewrite Hp0, Hs0, Hl0.
      repeat split; (done || lia). }
  unfold try_push.
  destruct (push_to_hub_r (hub n)) eqn:Ep; [|done|by apply Hretry].
  destruct (create_tag_r (hub n)) eqn:Ec; [|done|by apply Hretry].
  destruct (list_repo_refs_r (hub n)) eqn:El; [|done|by apply Hretry].
  intros [= <- <- <-]. cbn. repeat split; try (done || lia).
  intros _ _. rewrite !elem_of_cons. auto.
Qed.

(** X19.  While no call to the hub ends with [HfHubHTTPError], the retry
    loop of the template validator ends within
    [model_upload_retry_limit] passes: it leaves the local progress as it
    is, loads no state, sleeps exactly once between two consecutive
    passes, has used all passes when the exception escapes, and has
    created the tag of the local epoch when it ends without one. *)
Theorem push_loop_bounded limit delay tag_name hub fuel s st s' tr :
  0 < limit →
  (∀ k, push_to_hub_r (hub k) ≠ CallHTTPError
        ∧ create_tag_r (hub k) ≠ CallHTTPError
        ∧ list_repo_refs_r (hub k) ≠ CallHTTPError) →
  (Z.to_nat limit < fuel)%nat →
  push_loop limit delay tag_name hub fuel 0 0 s = (st, s', tr) →
  st ≠ StillRunning
  ∧ s' = s
  ∧ (1 ≤ calls is_PushToHub tr ≤ Z.to_nat limit)%nat
  ∧ S (calls is_Sleep tr) = calls is_PushToHub tr
  ∧ calls is_load_call tr = 0%nat
  ∧ (st = Escaped → calls is_PushToHub tr = Z.to_nat limit)
  ∧ (st = Completed → CreateTag (local_epoch s) true ∈ tr).
Proof.
  intros Hlimit Hhub Hfuel Hrun.
  apply push_loop_no_http in Hrun as (H1 & H2 & H3 & H4 & H5 & H6 & H7 & H8);
    [|done|by rewrite Z.sub_0_r].
  rewrite Z.sub_0_r in *. specialize (H4 Hlimit).
  repeat split; try (done || lia). auto.
Qed.

(** X20.  The wait for the averaging step returns at the first reading of
    the clock at which the step is done or [all_reduce_timeout] is
    exceeded.  It has slept once for each reading before that one, and at
    each of those the step was not done and the timeout was not exceeded.
    The number of sleeps is at most [all_reduce_timeout + 1] less the
    whole seconds of the first reading. *)
Theorem wait_for_averaging_result c timeout overruns elapsed :
  ∃ k : nat,
    wait_for_averaging c timeout overruns elapsed
      = (reading overruns elapsed k, replicate k (Sleep 1))
    ∧ (done c (reading overruns elapsed k) = true
       ∨ (inject_Z timeout < reading overruns elapsed k)%Q)
    ∧ (∀ j, (j < k)%nat →
         done c (reading overruns elapsed j) = false
         ∧ (reading overruns elapsed j <= inject_Z timeout)%Q)
    ∧ (k ≤ Z.to_nat (timeout + 1 - Qfloor elapsed))%nat.
Proof.
  destruct (wait_for_averaging c timeout overruns elapsed) as [t tr] eqn:Hrun.
  apply wait_for_averaging_stops in Hrun as (k & -> & -> & Hexit & Hbefore & Hk).
  by exists k.
Qed.
End PushLoop.

(** ** distributed_training/utils/misc.py *)

Section BlockFacts.
Import StateLoader Misc CallRuns.

Lemma get_current_block_safe_cached s t chain b :
  _last_block s = Some b →
  ∃ b' s', get_current_block_safe s t chain = (Returned b', s')
           ∧ _last_block s' = Some b'.
Proof.
  intros Hb. unfold get_current_block_safe. rewrite Hb.
  destruct (negb _); [by exists b, s|].
  destruct chain as [c|]; [by eexists _, _|by exists b, s].
Qed.

Lemma get_current_block_safe_empty s t chain :
  _last_block s = None →
  get_current_block_safe s t chain =
    match chain with
    | Some block =>
        (Returned block,
         {| _last_block := Some block; _last_block_time := t;
            _block_cache_duration := _block_cache_duration s |})
    | None => (Raised, s)
    end.
Proof. intros Hb. unfold get_current_block_safe. by rewrite Hb. Qed.

Lemma block_calls_cached calls : ∀ s b i,
  _last_block s = Some b → (block_calls s calls).1 !! i ≠ Some Raised.
Proof.
  induction calls as [|[t chain] calls IH]; intros s b i Hb; [done|].
  cbn [block_calls].
  destruct (get_current_block_safe_cached s t chain b Hb) as (b' & s' & -> & Hb').
  destruct (block_calls s' calls) as [os s2] eqn:Hrec.
  destruct i as [|i]; [done|]. cbn.
  specialize (IH s' b' i Hb'). by rewrite Hrec in IH.
Qed.

(** X21.  In any sequence of calls of [get_current_block_safe], a call
    raises exactly when no block was cached before the sequence and the
    chain has failed at that call and at every call before it: once a
    block has been fetched, no later call raises, however old the block. *)
Theorem get_current_block_safe_raises calls : ∀ s i,
  (block_calls s calls).1 !! i = Some Raised
  ↔ _last_block s = None
    ∧ (i < length calls)%nat
    ∧ ∀ j, (j ≤ i)%nat → ∃ t, calls !! j = Some (t, None).
Proof.
  induction calls as [|[t chain] calls IH]; intros s i.
  { cbn. split; [done|]. intros (_ & H & _). lia. }
  cbn [block_calls length].
  destruct (_last_block s) as [b|] eqn:Hb.
  - split; [|by intros (? & _)].
    intros H. exfalso.
    pose proof (block_calls_cached ((t, chain) :: calls) s b i Hb) as Hno.
    by cbn [block_calls] in Hno.
  - rewrite (get_current_block_safe_empty _ _ _ Hb).
    destruct chain as [c|].
    + destruct (block_calls _ calls) as [os s2] eqn:Hrec.
      split.
      * destruct i as [|i]; [done|]. cbn. intros H. exfalso.
        pose proof (block_calls_cached calls
          {| _last_block := Some c; _last_block_time := t;
             _block_cache_duration := _block_cache_duration s |} c i eq_refl) as Hno.
        by rewrite Hrec in Hno.
      * intros (_ & _ & H). destruct (H 0%nat) as (t' & Ht'); [lia|]. done.
    + specialize (IH s). destruct (block_calls s calls) as [os s2] eqn:Hrec.
      destruct i as [|i]; cbn.
      * split; [|done]. intros _. split; [done|]. split; [lia|].
        intros j Hj. assert (j = 0%nat) as -> by lia. by exists t.
      * cbn in IH. rewrite IH, Hb. split.
        -- intros (_ & Hi & H). split; [done|]. split; [lia|].
           intros [|j] Hj; [by exists t|]. cbn. apply H. lia.
        -- intros (_ & Hi & H). split; [done|]. split; [lia|].
           intros j Hj. apply (H (S j)). lia.
Qed.

(** X22.  While the chain answers, [get_current_block_safe] returns the
    block the chain has just given, recording the time of the call, or a
    cached block whose age is below [_block_cache_duration], leaving the
    cache as it is; the block returned is the one the cache holds after
    the call. *)
Theorem get_current_block_safe_fresh s t c o s' :
  get_current_block_safe s t (Some c) = (o, s') →
  _last_block s' = (match o with Returned b => Some b | Raised => None end)
  ∧ ((o = Returned c ∧ _last_block_time s' = t)
     ∨ (∃ b, o = Returned b ∧ _last_block s = Some b
             ∧ (t - _last_block_time s < _block_cache_duration s)%Q ∧ s' = s)).
Proof.
  unfold get_current_block_safe.
  destruct (_last_block s) as [b|] eqn:Hb.
  - destruct (Qle_bool _ _) eqn:Hage; cbn [negb].
    + intros [= <- <-]. split; [done|]. by left.
    + intros [= <- <-]. split; [done|]. right. exists b.
      repeat split; try done.
      apply Qnot_le_lt. intros Hle. apply Qle_bool_iff in Hle. congruence.
  - intros [= <- <-]. split; [done|]. by left.
Qed.

(** X23.  A block that [ttl_get_block] returns from its cache was fetched
    less than 12 seconds before or after the reading of the clock of that
    call: a call that follows a fetch and does not ask the chain returns
    the fetched block, and the two readings differ by less than 12. *)
Theorem ttl_get_block_window c t0 chain0 b0 c1 t1 chain1 r c2 :
  ttl_get_block c t0 chain0 = (Returned b0, true, c1) →
  ttl_get_block c1 t1 chain1 = (r, false, c2) →
  r = Returned b0 ∧ (Qabs (t1 - t0) < 12)%Q.
Proof.
  unfold ttl_get_block.
  set (start := default t0 (start_time c)).
  set (th0 := ttl_hash (effective_ttl 12) start t0).
  destruct (match entry c with Some (key, block) => _ | None => _ end) as [hit|];
    [by intros [= ]|].
  destruct chain0 as [block|]; [|by intros [= ]].
  intros [= -> <-]. cbn [start_time entry default from_option id].
  fold th0.
  set (th1 := ttl_hash (effective_ttl 12) start t1).
  destruct (Z.eqb_spec th0 th1) as [Heq|Hne].
  2:{ destruct chain1; by intros [= ]. }
  intros [= <- <-]. split; [done|].
  subst th0 th1. unfold ttl_hash in Heq. change (effective_ttl 12) with 12 in Heq.
  set (x0 := ((t0 - start) / inject_Z 12)%Q) in *.
  set (x1 := ((t1 - start) / inject_Z 12)%Q) in *.
  pose proof (Qfloor_le x0) as H0. pose proof (Qlt_floor x0) as H0'.
  pose proof (Qfloor_le x1) as H1. pose proof (Qlt_floor x1) as H1'.
  rewrite Heq in H0, H0'.
  rewrite inject_Z_plus in H0', H1'.
  assert (t0 - start == 12 * x0)%Q as E0 by (subst x0; field).
  assert (t1 - start == 12 * x1)%Q as E1 by (subst x1; field).
  apply Qabs_Qlt_condition. change (inject_Z 1) with 1%Q in *.
  split; lra.
Qed.
End BlockFacts.

Section PeerLists.
Import Misc.

Lemma append_new_spec peers : ∀ l,
  l `prefix_of` append_new peers l
  ∧ (∀ p, p ∈ append_new peers l ↔ p ∈ l ∨ p ∈ peers)
  ∧ (NoDup l → NoDup (append_new peers l)).
Proof.
  induction peers as [|peer rest IH]; intros l; cbn [append_new].
  { split; [done|]. split; [|done]. intros p. rewrite elem_of_nil. tauto. }
  destruct (IH (if bool_decide (peer ∈ l) then l else l ++ [peer]))
    as (Hpre & Hin & Hnd).
  case_bool_decide as Hmem.
  - split; [done|]. split; [|done].
    intros p. rewrite Hin, elem_of_cons.
    split; [tauto|]. intros [?|[->|?]]; tauto.
  - split; [|split].
    + etrans; [|exact Hpre]. by apply prefix_app_r.
    + intros p. rewrite Hin, elem_of_app, list_elem_of_singleton, elem_of_cons. tauto.
    + intros Hl. apply Hnd. apply NoDup_app. split; [done|].
      split; [|apply NoDup_singleton].
      intros x Hx. rewrite list_elem_of_singleton. by intros ->.
Qed.

Lemma add_runs_spec runs : ∀ l,
  l `prefix_of` add_runs runs l
  ∧ (∀ p, p ∈ add_runs runs l
          ↔ p ∈ l ∨ ∃ ru peers, ru ∈ runs ∧ running ru = true
                                ∧ dht_addresses ru = Some peers ∧ p ∈ peers)
  ∧ (NoDup l → NoDup (add_runs runs l)).
Proof.
  induction runs as [|ru rest IH]; intros l; cbn [add_runs].
  { split; [done|]. split; [|done]. intros p. split; [tauto|].
    intros [?|(ru & peers & Hru & _)]; [done|]. by apply elem_of_nil in Hru. }
  set (l' := if running ru then _ else _).
  destruct (IH l') as (Hpre & Hin & Hnd).
  assert (l `prefix_of` l'
          ∧ (∀ p, p ∈ l' ↔ p ∈ l ∨ (running ru = true
                                     ∧ ∃ peers, dht_addresses ru = Some peers
                                                ∧ p ∈ peers))
          ∧ (NoDup l → NoDup l')) as (Hpre' & Hin' & Hnd').
  { subst l'. destruct (running ru).
    - destruct (dht_addresses ru) as [peers|].
      + destruct (append_new_spec peers l) as (H1 & H2 & H3).
        split; [done|]. split; [|done]. intros p. rewrite H2.
        split; [intros [?|?]; [by left|right; split; [done|by exists peers]]|].
        intros [?|[_ (peers' & [= <-] & ?)]]; tauto.
      + split; [done|]. split; [|done]. intros p. split; [tauto|].
        by intros [?|[_ (peers' & ? & ?)]].
    - split; [done|]. split; [|done]. intros p. split; [tauto|].
      by intros [?|[? _]]. }
  split; [by etrans|]. split; [|auto].
  intros p. rewrite Hin, Hin'. split.
  - intros [[?|[Hrun (peers & Hp & Hmem)]]|(ru' & peers & Hru' & ?)]; [by left|..].
    + right. exists ru, peers. rewrite elem_of_cons. auto.
    + right. exists ru', peers. rewrite elem_of_cons. auto.
  - intros [?|(ru' & peers & Hru' & Hrun & Hp & Hmem)]; [by left; left|].
    apply elem_of_cons in Hru' as [->|Hru'].
    + left. right. split; [done|]. by exists peers.
    + right. by exists ru', peers.
Qed.

(** X24.  The list of initial peers that [init_dht] builds starts with the
    configured list, unchanged; a peer is in it exactly when it was
    configured or is a DHT address of a running validator or miner run
    that has such addresses; nothing is appended twice, so a configured
    list without duplicates gives a list without duplicates. *)
Theorem initial_peers_spec l validator_runs miner_runs :
  l `prefix_of` initial_peers l validator_runs miner_runs
  ∧ (∀ p, p ∈ initial_peers l validator_runs miner_runs
          ↔ p ∈ l ∨ ∃ ru peers, ru ∈ validator_runs ++ miner_runs
                                ∧ running ru = true
                                ∧ dht_addresses ru = Some peers ∧ p ∈ peers)
  ∧ (NoDup l → NoDup (initial_peers l validator_runs miner_runs)).
Proof.
  unfold initial_peers.
  destruct (add_runs_spec validator_runs l) as (H1 & H2 & H3).
  destruct (add_runs_spec miner_runs (add_runs validator_runs l)) as (H4 & H5 & H6).
  split; [by etrans|]. split; [|auto].
  intros p. rewrite H5, H2. split.
  - intros [[?|(ru & peers & Hru & ?)]|(ru & peers & Hru & ?)]; [by left|..];
      right; exists ru, peers; rewrite elem_of_app; auto.
  - intros [?|(ru & peers & Hru & ?)]; [by left; left|].
    apply elem_of_app in Hru as [Hru|Hru].
    + left. right. by exists ru, peers.
    + right. by exists ru, peers.
Qed.
End PeerLists.

Section DhtConnect.
Import StateLoader Misc.
Variable answers : nat → dht_attempt.

Lemma try_peers_app l1 l2 s :
  try_peers answers (l1 ++ l2) s =
    let '(returned, s') := try_peers answers l1 s in
    if returned then (true, s') else try_peers answers l2 s'.
Proof.
  revert s. induction l1 as [|p l1 IH]; intros s; [done|].
  cbn [app try_peers]. destruct (answers (length (tried s))); by rewrite ?IH.
Qed.

Lemma try_rounds_flat peers rounds s :
  try_rounds answers peers rounds s
  = try_peers answers (concat (replicate rounds peers)) s.
Proof.
  revert s. induction rounds as [|rounds IH]; intros s; [done|].
  cbn [try_rounds replicate concat]. rewrite try_peers_app.
  destruct (try_peers answers peers s) as [[] s']; [done|apply IH].
Qed.

Lemma try_peers_spec l : ∀ s returned s',
  try_peers answers l s = (returned, s') →
  ∃ k, (k ≤ length l)%nat
    ∧ tried s' = tried s ++ take k l
    ∧ (∀ j, (S j < k)%nat → answers (length (tried s) + j) ≠ DhtReturns)
    ∧ (if returned
       then (∃ j, k = S j ∧ answers (length (tried s) + j) = DhtReturns)
            ∧ successful_connection s' = true
       else k = length l
            ∧ retries s' = (retries s + length l)%nat
            ∧ (∀ j, (j < k)%nat → answers (length (tried s) + j) ≠ DhtReturns)
            ∧ (successful_connection s' = false
               ↔ successful_connection s = false
                 ∧ ∀ j, (j < k)%nat → answers (length (tried s) + j) = DhtRaises)).
Proof.
  induction l as [|p l IH]; intros s returned s'; cbn [try_peers].
  { intros [= <- <-]. exists 0%nat. rewrite app_nil_r. cbn.
    split_and!; try (done || lia). split; [|by intros [? _]].
    intros ?. split; [done|lia]. }
  destruct (answers (length (tried s))) eqn:Ha.
  - intros [= <- <-]. exists 1%nat. cbn. split_and!; try (done || lia).
    exists 0%nat. by rewrite Nat.add_0_r.
  - intros Hrec. apply IH in Hrec as (k & Hk & Htried & Hfirst & Hend).
    cbn [tried retries successful_connection] in *.
    rewrite length_app in *. cbn [length] in *.
    exists (S k). split; [lia|]. split; [by rewrite Htried, <- app_assoc|].
    split.
    { intros [|j] Hj; [by rewrite Nat.add_0_r, Ha|].
      replace (length (tried s) + S j)%nat with (length (tried s) + 1 + j)%nat by lia.
      apply Hfirst. lia. }
    destruct returned.
    + destruct Hend as [(j & -> & Hj) Hs]. split; [|done].
      exists (S j). split; [done|].
      by replace (length (tried s) + S j)%nat with (length (tried s) + 1 + j)%nat by lia.
    + destruct Hend as (-> & Hr & Hno & Hs). split_and!; [done|lia|..].
      * intros [|j] Hj; [by rewrite Nat.add_0_r, Ha|].
        replace (length (tried s) + S j)%nat with (length (tried s) + 1 + j)%nat by lia.
        apply Hno. lia.
      * rewrite Hs. split.
        -- intros [Hs0 Hall]. split; [done|].
           intros [|j] Hj; [by rewrite Nat.add_0_r|].
           replace (length (tried s) + S j)%nat
             with (length (tried s) + 1 + j)%nat by lia.
           apply Hall. lia.
        -- intros [Hs0 Hall]. split; [done|].
           intros j Hj.
           replace (length (tried s) + 1 + j)%nat
             with (length (tried s) + S j)%nat by lia.
           apply Hall. lia.
  - intros Hrec. apply IH in Hrec as (k & Hk & Htried & Hfirst & Hend).
    cbn [tried retries successful_connection] in *.
    rewrite length_app in *. cbn [length] in *.
    exists (S k). split; [lia|]. split; [by rewrite Htried, <- app_assoc|].
    split.
    { intros [|j] Hj; [by rewrite Nat.add_0_r, Ha|].
      replace (length (tried s) + S j)%nat with (length (tried s) + 1 + j)%nat by lia.
      apply Hfirst. lia. }
    destruct returned.
    + destruct Hend as [(j & -> & Hj) Hs]. split; [|done].
      exists (S j). split; [done|].
      by replace (length (tried s) + S j)%nat with (length (tried s) + 1 + j)%nat by lia.
    + destruct Hend as (-> & Hr & Hno & Hs). split_and!; [done|lia|..].
      * intros [|j] Hj; [by rewrite Nat.add_0_r, Ha|].
        replace (length (tried s) + S j)%nat with (length (tried s) + 1 + j)%nat by lia.
        apply Hno. lia.
      * rewrite Hs. split; [by intros [? _]|].
        intros [_ Hall]. specialize (Hall 0%nat). rewrite Nat.add_0_r, Ha in Hall.
        discriminate Hall. lia.
Qed.

Lemma length_concat_replicate {A} n (l : list A) :
  length (concat (replicate n l)) = (n * length l)%nat.
Proof. induction n as [|n IH]; cbn; [done|]. rewrite length_app. lia. Qed.

(** X25.  The connection loop of [init_dht] ends within two passes of its
    [while]: it tries the initial peers in turn, [buffer] = 5 rounds over
    the list at most, and returns at the first attempt that succeeds; it
    raises exactly when every one of the [5 * len(initial_peers_list)]
    attempts fails before the DHT is created (so at once for an empty
    list), having then tried each peer five times. *)
Theorem init_dht_connect_spec peers fuel :
  ∃ r s,
    init_dht_connect answers peers (S (S fuel)) = Some (r, s)
    ∧ tried s `prefix_of` concat (replicate buffer peers)
    ∧ (∀ j, (S j < length (tried s))%nat → answers j ≠ DhtReturns)
    ∧ (r = Raised
       ↔ ∀ j, (j < buffer * length peers)%nat → answers j = DhtRaises)
    ∧ (r = Raised → tried s = concat (replicate buffer peers)
                    ∧ retries s = (buffer * length peers)%nat).
Proof.
  unfold init_dht_connect. cbn [connect_loop successful_connection retries].
  destruct (Nat.eqb_spec 0 (buffer * length peers)) as [Hz|Hnz].
  { eexists _, _. split; [done|]. cbn [tried retries].
    assert (peers = []) as -> by (destruct peers; [done|cbn in Hz; lia]).
    repeat split; try (done || (cbn; lia)). }
  rewrite try_rounds_flat.
  destruct (try_peers answers _ _) as [returned s'] eqn:Hrun.
  apply try_peers_spec in Hrun as (k & Hk & Htried & Hfirst & Hend).
  cbn [tried length app Nat.add retries successful_connection] in *.
  rewrite length_concat_replicate in *.
  destruct returned.
  - destruct Hend as [(j & -> & Hj) Hs].
    eexists _, _. split; [done|]. rewrite Htried.
    split; [apply prefix_take|].
    split; [intros i; rewrite length_take, length_concat_replicate; intros ?;
            apply Hfirst; lia|].
    split; [|done]. split; [done|].
    intros Hall. rewrite Hall in Hj by lia. done.
  - destruct Hend as (-> & Hr & Hno & Hs).
    assert (tried s' = concat (replicate buffer peers)) as Hfull.
    { rewrite Htried. apply take_ge. by rewrite length_concat_replicate. }
    destruct (successful_connection s') eqn:Hconn.
    + eexists _, _. split; [done|]. rewrite Hfull.
      split; [done|].
      split; [intros i; rewrite length_concat_replicate; intros ?; apply Hno; lia|].
      split; [|done]. split; [done|].
      intros Hall. assert (true = false) as Habs; [|done].
      apply Hs. done.
    + rewrite Hr, Nat.eqb_refl.
      eexists _, _. split; [done|]. rewrite Hfull.
      split; [done|].
      split; [intros i; rewrite length_concat_replicate; intros ?; apply Hno; lia|].
      split; [|done]. split; [|done].
      intros _. by apply Hs.
Qed.
End DhtConnect.

(** ** The all-reduce round of the distributed_training validator *)

Section MasterRound.
Import StateLoader DTRound.

Lemma recover_spec env s m up :
  match recover env s m up with
  | Raised => fresh_global_epoch env = None
  | Returned r =>
      ∃ g b,
        fresh_global_epoch env = Some g
        ∧ recovered r = Some g
        ∧ uploaded r = up
        ∧ manager r = ModelLoadingManager.set_loading_state m false None
        ∧ load_state_from_peer (recovery env)
            {| local_epoch := local_epoch s;
               local_samples_accumulated := local_samples_accumulated s;
               global_epoch := g |} g = (b, neuron r, load_calls r)
  end.
Proof.
  unfold recover. destruct (fresh_global_epoch env) as [g|]; [|done].
  destruct (load_state_from_peer _ _ _) as [[b s2] tr] eqn:Hload.
  by exists g, b.
Qed.

(** X26.  The round of the master validator lets an exception escape
    exactly when [get_global_epoch] raises inside its handler, that is
    when the handler runs (the all-reduce, the scoring or the upload has
    failed) and the global epoch cannot be read; the round of another
    validator has no handler and lets every exception of the all-reduce
    and of the scoring escape. *)
Theorem master_round_raises env s m :
  (master_round env s m = Raised
   ↔ fresh_global_epoch env = None
     ∧ ¬ (allreduce env = AllReduceSucceeds ∧ scores_ok env = true
          ∧ upload_ok env = true))
  ∧ (participant_round env s m = Raised
     ↔ allreduce env = AllReduceRaises
       ∨ (allreduce env = AllReduceSucceeds ∧ scores_ok env = false)).
Proof.
  assert (∀ s' up, recover env s' m up = Raised ↔ fresh_global_epoch env = None)
    as Hrec.
  { intros s' up. pose proof (recover_spec env s' m up) as H.
    destruct (recover env s' m up) as [r|].
    - destruct H as (g & b & -> & _). done.
    - done. }
  unfold master_round, participant_round.
  destruct (allreduce env), (scores_ok env), (upload_ok env);
    rewrite ?Hrec; split; split; intuition (done || congruence).
Qed.

(** X27.  When the handler of the master's round has run and returned, the
    loading flag is cleared and [last_loaded_epoch] is as before, every
    call made is one of [load_state_from_peer], and the local progress is
    either level with the global epoch with no samples (the state was
    loaded) or what the [try] block left: the progress before the round,
    or that progress advanced by one epoch when the upload of the new
    state is what failed. *)
Theorem master_round_recovery env s m r :
  master_round env s m = Returned r →
  recovered r ≠ None →
  ModelLoadingManager.is_loading (manager r) = false
  ∧ ModelLoadingManager.last_loaded_epoch (manager r)
    = ModelLoadingManager.last_loaded_epoch m
  ∧ recovered r = fresh_global_epoch env
  ∧ (∀ e, e ∈ load_calls r → is_load_call e = true)
  ∧ (uploaded r ≠ None
     ↔ allreduce env = AllReduceSucceeds ∧ scores_ok env = true)
  ∧ ((global_epoch (neuron r) = Some (local_epoch (neuron r))
      ∧ local_samples_accumulated (neuron r) = 0)
     ∨ (local_epoch (neuron r) = local_epoch s
        ∧ local_samples_accumulated (neuron r) = local_samples_accumulated s
        ∧ uploaded r = None)
     ∨ (local_epoch (neuron r) = local_epoch s + 1
        ∧ local_samples_accumulated (neuron r) = 0
        ∧ uploaded r = Some (local_epoch s + 1))).
Proof.
  assert (∀ s' up,
    recover env s' m up = Returned r →
    ModelLoadingManager.is_loading (manager r) = false
    ∧ ModelLoadingManager.last_loaded_epoch (manager r)
      = ModelLoadingManager.last_loaded_epoch m
    ∧ recovered r = fresh_global_epoch env
    ∧ (∀ e, e ∈ load_calls r → is_load_call e = true)
    ∧ uploaded r = up
    ∧ ((global_epoch (neuron r) = Some (local_epoch (neuron r))
        ∧ local_samples_accumulated (neuron r) = 0)
       ∨ (local_epoch (neuron r) = local_epoch s'
          ∧ local_samples_accumulated (neuron r) = local_samples_accumulated s')))
    as Hrec.
  { intros s' up Hr. pose proof (recover_spec env s' m up) as H.
    rewrite Hr in H. destruct H as (g & b & Hg & Hrecd & Hup & Hm & Hload).
    rewrite Hm. split; [done|]. split; [done|]. split; [congruence|].
    split; [by eapply load_state_from_peer_calls|]. split; [done|].
    destruct b.
    - left. revert Hload. unfold load_state_from_peer.
      destruct g as [g|]; cbn -[load_loop].
      + destruct (load_loop _ _ _ _) as [[] tr2]; intros [= <- _]; done.
      + destruct (get_global_epoch (recovery env)) as [[g|]|]; cbn -[load_loop];
          try by intros [= ].
        destruct (load_loop _ _ _ _) as [[] tr2]; intros [= <- _]; done.
    - right. by apply load_state_from_peer_failure in Hload. }
  unfold master_round.
  destruct (allreduce env) eqn:Ha.
  - destruct (scores_ok env) eqn:Hs.
    + destruct (upload_ok env) eqn:Hu.
      * by intros [= <-] [].
      * intros Hr _. apply Hrec in Hr as (H1 & H2 & H3 & H4 & H5 & H6).
        split_and!; try done.
        { rewrite H5. done. }
        destruct H6 as [?|[? ?]]; [by left|right; right]. by rewrite H5.
    + intros Hr _. apply Hrec in Hr as (H1 & H2 & H3 & H4 & H5 & H6).
      split_and!; try done.
      { rewrite H5. split; [done|]. by intros [_ ?]. }
      destruct H6 as [?|[? ?]]; [by left|right; left]. by rewrite H5.
  - intros Hr _. apply Hrec in Hr as (H1 & H2 & H3 & H4 & H5 & H6).
    split_and!; try done.
    { rewrite H5. split; [done|]. by intros [? _]. }
    destruct H6 as [?|[? ?]]; [by left|right; left]. by rewrite H5.
  - intros Hr _. apply Hrec in Hr as (H1 & H2 & H3 & H4 & H5 & H6).
    split_and!; try done.
    { rewrite H5. split; [done|]. by intros [? _]. }
    destruct H6 as [?|[? ?]]; [by left|right; left]. by rewrite H5.
Qed.
End MasterRound.

(** ** The properties on concrete inputs *)

Section Instances.
Import StateLoader Examples Scenarios CallRuns.


Lemma load_state_from_peer_idempotent_witness :
  load_state_from_peer env_ok behind None = (true, caught_up, caught_up_calls)
  ∧ load_state_from_peer env_ok caught_up None = (true, caught_up, caught_up_calls).
Proof.
  split; [reflexivity|].
  exact (load_state_from_peer_idempotent env_ok behind None caught_up
           caught_up_calls eq_refl).
Defined.

Lemma load_state_from_peer_settles_witness :
  load_state_from_peer env_ok behind None = (true, caught_up, caught_up_calls)
  ∧ TemplateForward.recovery_triggered caught_up = false
  ∧ DTForward.recovery_triggered caught_up = false.
Proof.
  split; [reflexivity|].
  exact (load_state_from_peer_settles env_ok behind None caught_up
           caught_up_calls eq_refl).
Defined.

Lemma cleanup_old_cache_skips_current_witness :
  CacheCleanup.cleanup_old_cache "org/model" (Some "b2") None None (λ _, true)
    [other_repo; model_repo] = (Returned tt, ["c3"; "a1"])
  ∧ "b2" ∉ ["c3"; "a1"].
Proof.
  split; [reflexivity|].
  exact (proj1 (cleanup_old_cache_skips_current "org/model" (Some "b2") None None
                  (λ _, true) [other_repo; model_repo] (Returned tt) ["c3"; "a1"]
                  eq_refl) "b2" eq_refl).
Defined.

Lemma cleanup_old_cache_hands_others_witness :
  ∃ ordered,
    CacheCleanup.cleanup_old_cache "org/model" (Some "b2") None None (λ _, true)
      ([other_repo] ++ model_repo :: [])
    = (Returned tt,
       CacheCleanup.commit_hash
         <$> List.filter (λ r, negb (CacheCleanup.is_current (Some "b2") r)) ordered)
    ∧ ordered ≡ₚ [rev_a; rev_b; rev_c]
    ∧ Sorted Orders.at_least_as_new ordered.
Proof.
  apply (cleanup_old_cache_hands_others "org/model" (Some "b2") None None
           (λ _, true) [other_repo] model_repo []).
  - reflexivity.
  - repeat constructor. discriminate.
  - reflexivity.
Defined.

Lemma save_and_upload_state_tag_witness :
  save_and_upload_state 3 10 6 tag_fails_twice
    = (Returned true, attempts_with_delays 10 (passes 6 tag_fails_twice 0 3))
  ∧ calls is_tag_created (attempts_with_delays 10 (passes 6 tag_fails_twice 0 3))
    = 1%nat.
Proof.
  split; [reflexivity|].
  exact (proj1 (save_and_upload_state_tag 3 10 6 tag_fails_twice (Returned true)
                  (attempts_with_delays 10 (passes 6 tag_fails_twice 0 3)) eq_refl)).
Defined.

Lemma get_rewards_all_reduce_witness :
  Reward.no_first_response [] = true
  ∧ Reward.get_rewards bandwidth_env [1] [] true = Some [0; 1 / 2; 0]%Q.
Proof.
  split; [reflexivity|].
  exact (get_rewards_all_reduce bandwidth_env [1] [] eq_refl).
Defined.

Lemma get_rewards_all_reduce_scores_witness :
  Reward.get_rewards bandwidth_env [1] [] true = Some [0; 1 / 2; 0]%Q
  ∧ Forall (λ x, 0 <= x)%Q [0; 1 / 2; 0]%Q.
Proof.
  split; [reflexivity|].
  refine (proj1 (get_rewards_all_reduce_scores bandwidth_env [1] []
                   [0; 1 / 2; 0]%Q eq_refl _ eq_refl)).
  intros [|[|i]] start_time end_time; cbn; intros [= <- <-]. discriminate.
Defined.

Lemma get_rewards_raises_witness :
  Reward.no_first_response [far_response] = false
  ∧ Reward.get_rewards reward_env [7; 8] [far_response] false = None.
Proof.
  split; [reflexivity|].
  apply (proj2 (get_rewards_raises reward_env [7; 8] [far_response] false eq_refl)).
  left. cbn. lia.
Defined.

Lemma get_rewards_unanswered_witness :
  Reward.get_rewards reward_env [7; 8] [far_response; silent_response] false
    = Some [1 * exact (-2)%float; 0]%Q
  ∧ [1 * exact (-2)%float; 0]%Q !! 1%nat = Some 0%Q.
Proof.
  split; [reflexivity|].
  refine (get_rewards_unanswered reward_env [7; 8] [far_response; silent_response]
            false [1 * exact (-2)%float; 0]%Q 1 8 silent_response _ eq_refl
            eq_refl eq_refl eq_refl _).
  - intros population. done.
  - cbn. lia.
Defined.

Lemma process_all_reduce_calls_witness :
  TemplateForward.process_all_reduce 3 10 2 stuck_round 10 level 0
    = (TemplateForward.Completed, true, caught_up,
       [Sleep 1; Sleep 1; Sleep 1] ++ caught_up_calls ++ [Cancel; ZeroGrad])
  ∧ calls is_ZeroGrad
      ([Sleep 1; Sleep 1; Sleep 1] ++ caught_up_calls ++ [Cancel; ZeroGrad])
    = 1%nat.
Proof.
  split; [reflexivity|].
  exact (proj1 (proj2 (process_all_reduce_calls 3 10 2 stuck_round 10 level 0
                         TemplateForward.Completed true caught_up _ eq_refl))).
Defined.

Lemma push_loop_http_errors_witness :
  ∃ s' tr,
    TemplateForward.push_loop 3 10 4 hub_conflict 7 0 0 caught_up
      = (TemplateForward.StillRunning, s', tr)
    ∧ calls is_PushToHub tr = 7%nat
    ∧ calls is_Sleep tr = 0%nat
    ∧ local_epoch s' = local_epoch caught_up.
Proof.
  apply (push_loop_http_errors 3 10 4 hub_conflict 7 0 0 caught_up).
  - lia.
  - reflexivity.
  - reflexivity.
Defined.

Lemma push_loop_bounded_witness :
  TemplateForward.push_loop 3 10 4 hub_ok 10 0 0 caught_up
    = (TemplateForward.Completed, caught_up,
       [PushToHub true; CreateTag 5 true; ListRepoRefs])
  ∧ S (calls is_Sleep [PushToHub true; CreateTag 5 true; ListRepoRefs])
    = calls is_PushToHub [PushToHub true; CreateTag 5 true; ListRepoRefs].
Proof.
  split; [reflexivity|].
  refine (proj1 (proj2 (proj2 (proj2 (push_loop_bounded 3 10 4 hub_ok 10 caught_up
    TemplateForward.Completed caught_up _ _ _ _ eq_refl))))).
  - lia.
  - intros k. repeat split; discriminate.
  - cbn. lia.
Defined.

Lemma get_current_block_safe_fresh_witness :
  Misc.get_current_block_safe block_cache 15%Q (Some 101)
    = (Returned 100, block_cache)
  ∧ Misc._last_block block_cache = Some 100.
Proof.
  split; [reflexivity|].
  exact (proj1 (get_current_block_safe_fresh block_cache 15%Q 101 (Returned 100)
                  block_cache eq_refl)).
Defined.

Lemma ttl_get_block_window_witness :
  Misc.ttl_get_block ttl_empty 100%Q (Some 7) = (Returned 7, true, ttl_fetched)
  ∧ Misc.ttl_get_block ttl_fetched 105%Q None = (Returned 7, false, ttl_fetched)
  ∧ (Qabs (105 - 100) < 12)%Q.
Proof.
  split; [reflexivity|]. split; [reflexivity|].
  exact (proj2 (ttl_get_block_window ttl_empty 100%Q (Some 7) 7 ttl_fetched
                  105%Q None (Returned 7) ttl_fetched eq_refl eq_refl)).
Defined.

Lemma master_round_recovery_witness :
  ∃ r,
    DTRound.master_round upload_fails level ModelLoadingManager.init = Returned r
    ∧ DTRound.recovered r = Some (Some 4)
    ∧ DTRound.uploaded r = Some 5
    ∧ local_epoch (DTRound.neuron r) = 5
    ∧ ModelLoadingManager.is_loading (DTRound.manager r) = false.
Proof.
  eexists. split; [reflexivity|]. split; [reflexivity|]. split; [reflexivity|].
  split; [reflexivity|].
  refine (proj1 (master_round_recovery upload_fails level ModelLoadingManager.init
                   _ eq_refl _)).
  discriminate.
Defined.
End Instances.
